(* ===================================================================== *)
(* split_hybridlinucb.py: a hybrid LinUCB portfolio dispatcher.           *)
(*                                                                       *)
(* Shallow embedding of the selection policy of main (scores, ranking,   *)
(* rank-one model updates), of the dispatch loop add_strategy and of the *)
(* result post-processing of run_problem, with the properties of the     *)
(* specification stated over them.                                       *)
(*                                                                       *)
(* Numbers: the Python floats are read as elements of a real closed      *)
(* field R (exact arithmetic, no rounding, no NaN); the closed examples  *)
(* are computed in the real algebraic numbers algR.  Matrices are        *)
(* MathComp matrices; np.linalg.inv is the exact inverse and raises on a *)
(* singular matrix.  A Python exception is the result None.              *)
(* ===================================================================== *)

From HB Require Import structures.
From mathcomp Require Import boot order algebra.
From mathcomp Require Import algC.
From Stdlib Require Import String Ascii.

Set Implicit Arguments.
Unset Strict Implicit.
Unset Printing Implicit Defensive.

Import Order.TTheory GRing.Theory Num.Theory.

Local Open Scope ring_scope.

(* --------------------------------------------------------------------- *)
(* Exceptions: the option monad, and operators lifted to it so that an    *)
(* expression reads like its Python original, every np.linalg.inv and     *)
(* every list index being evaluated where it is written.                  *)
(* --------------------------------------------------------------------- *)

Definition lift2 {A B C : Type} (f : A -> B -> C)
    (a : option A) (b : option B) : option C :=
  if a is Some x then (if b is Some y then Some (f x y) else None) else None.

Notation "'do' x <- a ; b" := (obind (fun x => b) a)
  (at level 200, x name, a at level 100, b at level 200, only parsing).

(* s[i]: IndexError when i is out of range *)
Definition getitem {T : Type} (s : seq T) (i : nat) : option T :=
  ohead (drop i s).

(* s[i] = v: IndexError when i is out of range *)
Definition setitem {T : Type} (s : seq T) (i : nat) (v : T) : option (seq T) :=
  if (i < size s)%N then Some (set_nth v s i v) else None.

(* --------------------------------------------------------------------- *)
(* Outcomes of an engine run                                              *)
(* --------------------------------------------------------------------- *)

(* the five strings a Result's result field can hold *)
Inductive answer : Type :=
  | SAT_RESULT | UNSAT_RESULT | UNKNOWN_RESULT | TIMEOUT_RESULT | ERROR_RESULT.

(* res.result == SAT_RESULT or res.result == UNSAT_RESULT *)
Definition definitive (a : answer) : bool :=
  match a with SAT_RESULT | UNSAT_RESULT => true | _ => false end.

(* needle in haystack *)
Fixpoint contains (needle haystack : string) : bool :=
  String.prefix needle haystack ||
  (if haystack is String _ rest then contains needle rest else false).

Definition output2result (output : string) : answer :=
  if contains "UNSAT" output || contains "unsat" output then UNSAT_RESULT
  else if contains "SAT" output || contains "sat" output then SAT_RESULT
  else if contains "UNKNOWN" output || contains "unknown" output
       then UNKNOWN_RESULT
  else ERROR_RESULT.

(* --------------------------------------------------------------------- *)
(* The dispatcher, over a real closed field                               *)
(* --------------------------------------------------------------------- *)

Section Dispatcher.

Variable R : rcfType.

(* SOLVERS: engine name and invocation, in the dictionary's order;
   d = len(PROBES); the two numeric settings of the module. *)
Variable SOLVERS : seq (string * string).
Variable d : nat.
Variables TIMEOUT ALPHA : R.

(* len(SOLVERS) *)
Definition K : nat := size SOLVERS.

Record Result : Type := mkResult {
  problem : string;
  result : answer;
  elapsed : R
}.

(* What the subprocess of run_problem did: process.wait raised
   TimeoutExpired, or it returned after `wall` seconds (end - start) with
   the two captured streams. *)
Inductive process : Type :=
  | TimeoutExpired
  | Exited (wall : R) (stdout stderr : string).

(* problem.split("/", 2)[-1] *)
Fixpoint split_last (n : nat) (s : string) : string :=
  match n, s with
  | n'.+1, String c rest =>
      if Ascii.eqb c "/"%char then split_last n' rest
      else if contains "/" rest then split_last n rest else s
  | _, _ => s
  end.

Definition run_problem (p : process) (prob : string) : Result :=
  let: (elapsed, output) :=
    match p with
    | TimeoutExpired => (TIMEOUT / K%:R, TIMEOUT_RESULT)
    | Exited wall stdout stderr => (wall, output2result (String.append stdout stderr))
    end in
  mkResult (split_last 2 prob) output
    (if definitive output then elapsed else TIMEOUT / K%:R).

(* the reward appended by add_strategy for one attempt *)
Definition reward_of (e : R) : R := (1 - (K%:R * e) / TIMEOUT) ^+ 4.

(* ------------------------------------------------------------------- *)
(* Model state of main: A_0, B_0 and the per-engine lists As, Bs, Cs    *)
(* ------------------------------------------------------------------- *)

Record model : Type := Model {
  A_0 : 'M[R]_d;
  B_0 : 'cV[R]_d;
  As : seq 'M[R]_d;
  Bs : seq 'cV[R]_d;
  Cs : seq 'M[R]_d
}.

(* np.identity(d), np.zeros((d, 1)), and the comprehensions over SOLVERS *)
Definition init : model :=
  Model 1%:M 0 (nseq K 1%:M) (nseq K 0) (nseq K 0).

(* np.linalg.inv: LinAlgError on a singular matrix *)
Definition np_inv (A : 'M[R]_d) : option 'M[R]_d :=
  if A \in unitmx then Some (invmx A) else None.

Local Notation "a *? b" := (lift2 mulmx a b) (at level 40, left associativity).
Local Notation "a +? b" := (lift2 +%R a b) (at level 50, left associativity).
Local Notation "a -? b" := (lift2 (fun x y => x - y) a b)
  (at level 50, left associativity).
Local Notation "c *:? a" := (omap (GRing.scale c) a) (at level 40).
Local Notation "a ^T?" := (omap trmx a) (at level 8, format "a ^T?").
Local Notation "'inv?' a" := (obind np_inv a) (at level 10).
Local Notation "s [[ i ]]" := (getitem s i) (at level 2, format "s [[ i ]]").

(* [f(i) for i in ...] with f raising *)
Fixpoint mapM {A B : Type} (f : A -> option B) (s : seq A) : option (seq B) :=
  if s is x :: s' then lift2 cons (f x) (mapM f s') else Some [::].

(* np.argsort of a list of keys: the indices in ascending key order *)
Definition argsort (keys : seq R) : seq nat :=
  sort (fun i j => nth 0 keys i <= nth 0 keys j) (iota 0 (size keys)).

(* lines 206 to 216 of main *)
Definition beta_of (m : model) : option 'cV[R]_d :=
  np_inv (A_0 m) *? Some (B_0 m).

Definition theta_of (m : model) (beta : 'cV[R]_d) (i : nat) : option 'cV[R]_d :=
  inv? (As m)[[i]] *? ((Bs m)[[i]] -? (Cs m)[[i]] *? Some beta).

Definition ss_of (m : model) (point : 'cV[R]_d) (i : nat) : option 'M[R]_1 :=
  Some point^T *? np_inv (A_0 m) *? Some point
  -? 2 *:? Some point^T *? np_inv (A_0 m) *? (Cs m)[[i]]^T?
       *? inv? (As m)[[i]] *? Some point
  +? Some point^T *? inv? (As m)[[i]] *? Some point
  +? Some point^T *? inv? (As m)[[i]] *? (Cs m)[[i]] *? np_inv (A_0 m)
       *? (Cs m)[[i]]^T? *? inv? (As m)[[i]] *? Some point.

Definition ps_of (m : model) (point : 'cV[R]_d) : option (seq 'M[R]_1) :=
  do beta <- beta_of m;
  do thetas <- mapM (theta_of m beta) (iota 0 K);
  do ss <- mapM (ss_of m point) (iota 0 K);
  mapM (fun i => thetas[[i]]^T? *? Some point +? Some beta^T *? Some point
                 +? ALPHA *:? omap (map_mx Num.sqrt) ss[[i]])
       (iota 0 K).

Definition rank (m : model) (point : 'cV[R]_d) : option (seq nat) :=
  do ps <- ps_of m point;
  Some (argsort [seq (a : 'M[R]_1) 0 0 | a <- ps]).

(* lines 221 to 227 of main: the body of the update loop *)
Definition update (m : model) (point : 'cV[R]_d) (choice : nat) (reward : R)
    : option model :=
  let: Model A_0 B_0 As Bs Cs := m in
  do A_0 <- Some A_0 +? Cs[[choice]]^T? *? inv? As[[choice]] *? Cs[[choice]];
  do B_0 <- Some B_0 +? Cs[[choice]]^T? *? inv? As[[choice]] *? Bs[[choice]];
  do As <- (do a <- As[[choice]] +? Some (point *m point^T);
            setitem As choice a);
  do Bs <- (do b <- Bs[[choice]] +? Some (reward *: point);
            setitem Bs choice b);
  do Cs <- (do c <- Cs[[choice]] +? Some (point *m point^T);
            setitem Cs choice c);
  do A_0 <- Some A_0 +? (Some (point *m point^T)
              -? Cs[[choice]]^T? *? inv? As[[choice]] *? Cs[[choice]]);
  do B_0 <- Some B_0 +? (Some (reward *: point)
              -? Cs[[choice]]^T? *? inv? As[[choice]] *? Bs[[choice]]);
  Some (Model A_0 B_0 As Bs Cs).

(* ------------------------------------------------------------------- *)
(* The dispatch loop                                                    *)
(* ------------------------------------------------------------------- *)

(* The external collaborators: what probe measures on a problem, and what
   the subprocess started by run_problem for (engine name, invocation,
   problem) does. *)
Variable probe : string -> 'cV[R]_d.
Variable harness : string -> string -> string -> process.

Record Solved_Problem : Type := mkSolved {
  sp_problem : string;
  sp_datapoint : 'cV[R]_d;
  sp_solve_method : option string;
  sp_time : R;
  sp_result : answer
}.

(* Observable order of the effects of a round: an engine is run (where
   run_problem prints its name), a model update is applied. *)
Inductive event : Type :=
  | Attempt (engine : nat)
  | Update (engine : nat).

(* the local variables of add_strategy, with the list `solved` it appends
   to and the event trace *)
Record loop_state : Type := mkLoop {
  ls_elapsed : R;
  ls_solver : option string;
  ls_res : option Result;
  ls_rewards : seq R;
  ls_solved : seq Solved_Problem;
  ls_trace : seq event
}.

(* the for loop of add_strategy; the keys of a dictionary being distinct,
   SOLVERS[list(SOLVERS.keys())[i]] is the value of the i-th entry *)
Fixpoint attempts (prob : string) (datapoint : 'cV[R]_d)
    (solver_list : seq nat) (st : loop_state) : option loop_state :=
  if solver_list is i :: rest then
    do entry <- SOLVERS[[i]];
    let: (s, solver) := entry in
    let res := run_problem (harness s solver prob) prob in
    let elapsed' := ls_elapsed st + elapsed res in
    let rewards := rcons (ls_rewards st) (reward_of (elapsed res)) in
    let trace := rcons (ls_trace st) (Attempt i) in
    if definitive (result res) then
      Some (mkLoop elapsed' (Some solver) (Some res) rewards
              (rcons (ls_solved st)
                 (mkSolved prob datapoint (Some solver) elapsed' (result res)))
              trace)
    else
      attempts prob datapoint rest
        (mkLoop elapsed' (Some solver) (Some res) rewards (ls_solved st) trace)
  else Some st.

(* add_strategy: res.result after the loop raises AttributeError when res
   is still None *)
Definition add_strategy (prob : string) (datapoint : 'cV[R]_d)
    (solver_list : seq nat) (solved all : seq Solved_Problem)
    (trace : seq event)
    : option (seq R * seq Solved_Problem * seq Solved_Problem * seq event) :=
  do st <- attempts prob datapoint solver_list
             (mkLoop 0 None None [::] solved trace);
  do res <- ls_res st;
  Some (ls_rewards st, ls_solved st,
        rcons all (mkSolved prob datapoint (ls_solver st) (ls_elapsed st)
                     (result res)),
        ls_trace st).

(* lines 218 to 227 of main: for i in range(len(rewards)) *)
Fixpoint update_loop (choices : seq nat) (rewards : seq R) (point : 'cV[R]_d)
    (idx : seq nat) (mt : model * seq event) : option (model * seq event) :=
  if idx is i :: idx' then
    do choice <- choices[[i]];
    do reward <- rewards[[i]];
    do m <- update mt.1 point choice reward;
    update_loop choices rewards point idx' (m, rcons mt.2 (Update choice))
  else Some mt.

(* point / (np.array(last_five).max(axis=0) + 1e-10); raw is the last
   element of last_five *)
Definition normalize (last_five : seq 'cV[R]_d) (raw : 'cV[R]_d) : 'cV[R]_d :=
  \col_j (raw j 0 /
          (foldr Num.max (raw j 0) [seq (p : 'cV[R]_d) j 0 | p <- last_five]
           + (10 ^+ 10)^-1)).

(* what main carries from one problem to the next (all_ is the list `all`) *)
Record world : Type := mkWorld {
  mdl : model;
  last_five : seq 'cV[R]_d;
  solved : seq Solved_Problem;
  all_ : seq Solved_Problem;
  ctr : nat;
  trace : seq event
}.

Definition start : world := mkWorld init [::] [::] [::] 0 [::].

(* the body of `for prob in problems` *)
Definition round (w : world) (prob : string) : option world :=
  let raw := probe prob in
  let last_five := rcons (last_five w) raw in
  let point := normalize last_five raw in
  let last_five :=
    if (5 < size last_five)%N then behead last_five else last_five in
  do choices <- rank (mdl w) point;
  do out <- add_strategy prob point choices (solved w) (all_ w) (trace w);
  let: (rewards, solved, all, trace) := out in
  do mt <- update_loop choices rewards point (iota 0 (size rewards))
             (mdl w, trace);
  Some (mkWorld mt.1 last_five solved all (ctr w).+1 mt.2).

(* main, on the problems drawn by np.random.choice *)
Fixpoint rounds (problems : seq string) (w : world) : option world :=
  if problems is prob :: rest then
    do w' <- round w prob; rounds rest w'
  else Some w.

Definition main (problems : seq string) : option world := rounds problems start.

(* ------------------------------------------------------------------- *)
(* Symmetric positive-definite matrices and the invariant of the model  *)
(* ------------------------------------------------------------------- *)

Definition dot (x y : 'cV[R]_d) : R := (x^T *m y) 0 0.

(* the quadratic form v^T A v *)
Definition qf (A : 'M[R]_d) (v : 'cV[R]_d) : R := (v^T *m A *m v) 0 0.

Definition symmetric (A : 'M[R]_d) : Prop := A^T = A.
Definition posdef (A : 'M[R]_d) : Prop := forall v, v != 0 -> 0 < qf A v.
Definition possemidef (A : 'M[R]_d) : Prop := forall v, 0 <= qf A v.
Definition spd (A : 'M[R]_d) : Prop := symmetric A /\ posdef A.

(* Every list has one entry per engine, A_0 is symmetric positive-definite,
   and each engine's C is its A minus the identity it started from, a
   symmetric positive-semidefinite sum of outer products. *)
Definition model_ok (m : model) : Prop :=
  [/\ size (As m) = K, size (Bs m) = K, size (Cs m) = K, spd (A_0 m) &
      forall i, (i < K)%N ->
        [/\ symmetric (nth 0 (As m) i),
            nth 0 (Cs m) i = nth 0 (As m) i - 1%:M &
            possemidef (nth 0 (Cs m) i)] ].

(* a sequence of update(i, x, reward) calls *)
Fixpoint updates (m : model) (us : seq (nat * 'cV[R]_d * R)) : option model :=
  match us with
  | (i, x, reward) :: us' => do m' <- update m x i reward; updates m' us'
  | [::] => Some m
  end.

(* ------------------------------------------------------------------- *)
(* The specification's reading of update and of score                   *)
(* ------------------------------------------------------------------- *)

(* update(i, x, reward) as the specification words it: the two global
   corrections read the matrices of engine i from before its rank-one
   step, the last two read them from after it. *)
Definition update_spec (m : model) (x : 'cV[R]_d) (i : nat) (reward : R)
    : option model :=
  if [&& (i < size (As m))%N, (i < size (Bs m))%N & (i < size (Cs m))%N] then
    let A := nth 0 (As m) i in
    let B := nth 0 (Bs m) i in
    let C := nth 0 (Cs m) i in
    let A' := A + x *m x^T in
    let B' := B + reward *: x in
    let C' := C + x *m x^T in
    if (A \in unitmx) && (A' \in unitmx) then
      Some (Model
        (A_0 m + C^T *m invmx A *m C + (x *m x^T - C'^T *m invmx A' *m C'))
        (B_0 m + C^T *m invmx A *m B + (reward *: x - C'^T *m invmx A' *m B'))
        (set_nth 0 (As m) i A') (set_nth 0 (Bs m) i B')
        (set_nth 0 (Cs m) i C'))
    else None
  else None.

(* score(i, x) as the specification words it *)
Definition beta_spec (m : model) : 'cV[R]_d := invmx (A_0 m) *m B_0 m.

Definition theta_spec (m : model) (i : nat) : 'cV[R]_d :=
  invmx (nth 0 (As m) i) *m (nth 0 (Bs m) i - nth 0 (Cs m) i *m beta_spec m).

Definition predicted (m : model) (i : nat) (x : 'cV[R]_d) : R :=
  ((theta_spec m i)^T *m x + (beta_spec m)^T *m x) 0 0.

Definition s_spec (m : model) (i : nat) (x : 'cV[R]_d) : R :=
  let A0i := invmx (A_0 m) in
  let Ai := invmx (nth 0 (As m) i) in
  let C := nth 0 (Cs m) i in
  (x^T *m A0i *m x - 2 *: (x^T *m A0i *m C^T *m Ai *m x)
   + x^T *m Ai *m x + x^T *m Ai *m C *m A0i *m C^T *m Ai *m x) 0 0.

Definition score_spec (m : model) (i : nat) (x : 'cV[R]_d) : R :=
  predicted m i x + ALPHA * Num.sqrt (s_spec m i x).

(* the share of the surprise r - predicted that update(i, x, r) moves into
   the predicted value of engine i at x *)
Definition gain (m : model) (i : nat) (x : 'cV[R]_d) : R :=
  let u := invmx (nth 0 (As m) i) *m x in
  let a := dot x u in
  let c := (1 + a)^-1 in
  let b := dot u (invmx (A_0 m) *m u) in
  c * (a + c / (1 + c * b) * b).

(* ------------------------------------------------------------------- *)
(* The specification's reading of the dispatch loop                     *)
(* ------------------------------------------------------------------- *)

(* the Result of running engine i on prob *)
Definition res_at (prob : string) (i : nat) : Result :=
  let entry := nth (EmptyString, EmptyString) SOLVERS i in
  run_problem (harness entry.1 entry.2 prob) prob.

(* engine i gives a definitive answer on prob *)
Definition solves (prob : string) (i : nat) : bool :=
  definitive (result (res_at prob i)).

(* the engines of an order that are attempted: all of them up to and
   including the first that solves, the whole order when none does *)
Definition tried (prob : string) (order : seq nat) : seq nat :=
  take (find (solves prob) order).+1 order.

(* the update calls of a round in which the engines t were attempted *)
Definition round_updates (prob : string) (x : 'cV[R]_d) (t : seq nat)
    : seq (nat * 'cV[R]_d * R) :=
  [seq (i, x, reward_of (elapsed (res_at prob i))) | i <- t].

(* the feature vector of the round of prob *)
Definition point_of (w : world) (prob : string) : 'cV[R]_d :=
  normalize (rcons (last_five w) (probe prob)) (probe prob).

(* the order in which rank puts the engines *)
Definition order_of (m : model) (x : 'cV[R]_d) : seq nat :=
  argsort [seq score_spec m i x | i <- iota 0 K].

(* every attempt of a trace is followed at once by the update of its
   engine, and no update comes without its attempt *)
Fixpoint interleaved (t : seq event) : bool :=
  match t with
  | Attempt i :: Update j :: t' => (i == j) && interleaved t'
  | [::] => true
  | _ => false
  end.

End Dispatcher.

Arguments tried : simpl never.

(* ------------------------------------------------------------------- *)
(* The constants of the module as shipped                               *)
(* ------------------------------------------------------------------- *)

Module Shipped.

Definition SOLVERS : seq (string * string) :=
  [:: ("Z3", "z3 -T:18");
      ("CVC4", "cvc4 --tlimit=18000");
      ("BOOLECTOR", "./tools/boolector-3.2.1/build/bin/boolector -t 18");
      ("YICES", "./tools/yices-2.6.2/bin/yices-smt2 --timeout=18")]%string.

Definition PROBES : seq string :=
  [:: "size"; "num-exprs"; "num-consts"; "arith-avg-deg"; "arith-max-bw";
      "arith-max-bw"; "arith-avg-bw"; "depth"; "num-bool-consts";
      "num-arith-consts"; "num-bv-consts"]%string.

(* d = len(PROBES) *)
Definition d : nat := size PROBES.

(* TIMEOUT = 60.0 and ALPHA = 2.358, in any real closed field *)
Definition TIMEOUT (R : rcfType) : R := 60.
Definition ALPHA (R : rcfType) : R := 2358 / 1000.

End Shipped.

(* ------------------------------------------------------------------- *)
(* Concrete collaborators and inputs for the closed examples            *)
(* ------------------------------------------------------------------- *)

Module Examples.

Section Inputs.

Variable R : rcfType.

(* every engine runs into the timeout *)
Definition all_timeout (s solver prob : string) : process R :=
  TimeoutExpired R.

(* probe measures nothing but zeros *)
Definition zero_probe (d : nat) (prob : string) : 'cV[R]_d := 0.

(* the feature vector [1.0, 0.0] of the specification's scenario *)
Definition x10 : 'cV[R]_2 := \col_i (i == 0)%:R.

(* a feature vector of the shipped length, 3/8 on its first two probes *)
Definition x38 : 'cV[R]_Shipped.d :=
  \col_i (if (i < 2)%N then 3 / 8 else 0).

(* the matrix [[a, b], [c, e]] and the column [a, b] *)
Definition mx2 (a b c e : R) : 'M[R]_2 :=
  \matrix_(i, j) (if i == 0 then (if j == 0 then a else b)
                  else (if j == 0 then c else e)).

Definition cv2 (a b : R) : 'cV[R]_2 := \col_i (if i == 0 then a else b).

End Inputs.

(* the scenario of the specification has two engines *)
Definition SOLVERS2 : seq (string * string) :=
  [:: ("Z3", "z3 -T:18"); ("CVC4", "cvc4 --tlimit=18000")]%string.

End Examples.

(* ===================================================================== *)
(* Properties                                                            *)
(* ===================================================================== *)

Section ListFacts.

Variable T : Type.
Implicit Types (s : seq T) (i : nat).

Lemma getitemE (x0 : T) s i :
  getitem s i = if (i < size s)%N then Some (nth x0 s i) else None.
Proof. by rewrite /getitem; elim: s i => [|y s IH] [|i] //=. Qed.

Lemma set_nth_dflt (x0 x1 : T) s i (v : T) :
  (i < size s)%N -> set_nth x0 s i v = set_nth x1 s i v.
Proof. by elim: s i => [|y s IH] [|i] //= /IH ->. Qed.

Lemma getitem_set_nth s i (v : T) :
  (i < size s)%N -> getitem (set_nth v s i v) i = Some v.
Proof.
move=> h; rewrite (getitemE v) size_set_nth nth_set_nth /= eqxx.
by rewrite (maxn_idPr h) h.
Qed.

End ListFacts.

Section LinAlg.
Variable R : rcfType.
Variable d : nat.
Implicit Types (A B : 'M[R]_d) (x y z v u : 'cV[R]_d) (k e : R).

Lemma dotE x y : x^T *m y = (dot x y)%:M.
Proof. by rewrite /dot -mx11_scalar. Qed.

Lemma dot_sum x y : dot x y = \sum_i x i 0 * y i 0.
Proof. by rewrite /dot mxE; apply: eq_bigr => i _; rewrite mxE. Qed.

Lemma dotC x y : dot x y = dot y x.
Proof. by rewrite !dot_sum; apply: eq_bigr => i _; rewrite mulrC. Qed.

Lemma dot_ge0 v : 0 <= dot v v.
Proof. by rewrite dot_sum; apply: sumr_ge0 => i _; rewrite -expr2 sqr_ge0. Qed.

Lemma dot_eq0 v : (dot v v == 0) = (v == 0).
Proof.
apply/idP/idP => [|/eqP ->]; last first.
  by rewrite dot_sum big1 // => i _; rewrite mxE mul0r.
rewrite dot_sum psumr_eq0 => [i _|/allP h]; first by rewrite -expr2 sqr_ge0.
 apply/eqP/colP => i; rewrite mxE.
have := h i; rewrite mem_index_enum => /(_ isT) /=.
by rewrite mulf_eq0 orbb => /eqP.
Qed.

Lemma dot_gt0 v : v != 0 -> 0 < dot v v.
Proof. by move=> h; rewrite lt_def dot_ge0 dot_eq0 h. Qed.

Lemma qf_dot A v : qf A v = dot v (A *m v).
Proof. by rewrite /qf /dot mulmxA. Qed.

Lemma qfD A B v : qf (A + B) v = qf A v + qf B v.
Proof. by rewrite /qf mulmxDr mulmxDl mxE. Qed.

Lemma qfB A B v : qf (A - B) v = qf A v - qf B v.
Proof. by rewrite /qf mulmxBr mulmxBl !mxE. Qed.

Lemma qfZ (c : R) A v : qf (c *: A) v = c * qf A v.
Proof. by rewrite /qf -scalemxAr -scalemxAl mxE. Qed.

Lemma qf1 v : qf 1%:M v = dot v v.
Proof. by rewrite /qf mulmx1. Qed.

Lemma qf_outer x v : qf (x *m x^T) v = dot x v ^+ 2.
Proof.
rewrite /qf.
have -> : v^T *m (x *m x^T) *m v = (x^T *m v)^T *m (x^T *m v).
  by rewrite trmx_mul trmxK !mulmxA.
by rewrite dotE tr_scalar_mx -scalar_mxM mxE eqxx mulr1n expr2.
Qed.

Lemma posdef_unit A : posdef A -> A \in unitmx.
Proof.
move=> pA; rewrite unitmxE unitfE; apply/negP => /det0P [v vn0 vA].
have: v^T != 0 by rewrite -trmx0 (inj_eq trmx_inj).
by move=> /pA; rewrite /qf trmxK vA mul0mx mxE ltxx.
Qed.

Lemma sym_inv A : symmetric A -> symmetric (invmx A).
Proof. by rewrite /symmetric trmx_inv => ->. Qed.

Lemma qf_inv A v : symmetric A -> A \in unitmx ->
  qf (invmx A) v = qf A (invmx A *m v).
Proof.
move=> sA uA; rewrite /qf trmx_mul trmx_inv sA.
by rewrite !mulmxA mulmxKV.
Qed.

Lemma posdef_inv A : symmetric A -> posdef A -> posdef (invmx A).
Proof.
move=> sA pA v vn0; have uA := posdef_unit pA.
rewrite qf_inv //; apply: pA; apply: contra_neq vn0 => h.
by rewrite -[v](mulKVmx uA) h mulmx0.
Qed.

Lemma posdef_psd A : posdef A -> possemidef A.
Proof.
move=> pA v; have [->|/pA /ltW //] := eqVneq v 0.
by rewrite /qf mulmx0 mxE.
Qed.

Lemma dotDr x y z : dot x (y + z) = dot x y + dot x z.
Proof. by rewrite /dot mulmxDr mxE. Qed.

Lemma dotDl x y z : dot (x + y) z = dot x z + dot y z.
Proof. by rewrite /dot linearD /= mulmxDl mxE. Qed.

Lemma dotZr k y z : dot y (k *: z) = k * dot y z.
Proof. by rewrite /dot -scalemxAr mxE. Qed.

Lemma dotZl k y z : dot (k *: y) z = k * dot y z.
Proof. by rewrite /dot linearZ /= -scalemxAl mxE. Qed.

Lemma dot_sym A y z : symmetric A -> dot (A *m y) z = dot y (A *m z).
Proof. by move=> sA; rewrite /dot trmx_mul sA mulmxA. Qed.

(* (u u^T) y = (u . y) u *)
Lemma outer_mul u y : u *m u^T *m y = dot u y *: u.
Proof. by rewrite -mulmxA dotE mul_mx_scalar. Qed.

Lemma sherman_morrison_gen A x e :
  symmetric A -> posdef A -> 0 <= e ->
  let u := invmx A *m x in
  A + e *: (x *m x^T) \in unitmx /\
  invmx (A + e *: (x *m x^T))
  = invmx A - (e / (1 + e * dot x u)) *: (u *m u^T).
Proof.
move=> sA pA e0 u; set a := dot x u; set k := e / (1 + e * a).
have uA := posdef_unit pA.
have a_ge0 : 0 <= a.
  by rewrite /a /u -qf_dot; apply: posdef_psd; apply: posdef_inv.
have k1 : e - k - e * k * a = 0.
  by rewrite /k; field?; rewrite gt_eqF // ltr_pwDl // mulr_ge0.
have uT : u^T = x^T *m invmx A by rewrite /u trmx_mul (sym_inv sA).
set W := x *m u^T.
have e1 : A *m (u *m u^T) = W by rewrite mulmxA /u (mulKVmx uA).
have e2 : x *m x^T *m invmx A = W by rewrite -mulmxA -uT.
have e3 : x *m x^T *m (u *m u^T) = a *: W.
  by rewrite -mulmxA [x^T *m _]mulmxA dotE mul_scalar_mx -scalemxAr.
have h : (A + e *: (x *m x^T)) *m (invmx A - k *: (u *m u^T)) = 1%:M.
  rewrite mulmxBr mulmxDl mulmxV // -scalemxAl e2 -scalemxAr mulmxDl e1.
  rewrite -scalemxAl e3 !scalerA scalerDr !scalerA.
  rewrite -addrA -[RHS]addr0; congr (_ + _).
  rewrite opprD addrA -scaleNr -scalerDl -scaleNr -scalerDl.
  by rewrite -[X in X *: _]/(e + - k + - (k * (e * a))) (_ : _ + _ + _ = 0) ?scale0r //; rewrite -k1; ring.
have [uA' _] := mulmx1_unit h; split=> //.
by rewrite -[LHS]mulmx1 -h mulKmx.
Qed.

Lemma sherman_morrison A x :
  symmetric A -> posdef A ->
  let u := invmx A *m x in
  A + x *m x^T \in unitmx /\
  invmx (A + x *m x^T) = invmx A - (1 + dot x u)^-1 *: (u *m u^T).
Proof.
move=> sA pA u.
have [] := sherman_morrison_gen x sA pA (@ler01 R).
by rewrite scale1r !mul1r.
Qed.

End LinAlg.

Section UpdateFacts.

Variable R : rcfType.
Variable d : nat.
Implicit Types (m : model R d) (x : 'cV[R]_d) (i : nat) (r : R).

(* the body of the update loop computes what the specification's seven
   steps give, and raises exactly when an index is out of range or one of
   the two inversions fails *)
Lemma update_correct m x i r : update m x i r = update_spec m x i r.
Proof.
case: m => a0 b0 As Bs Cs; rewrite /update /update_spec /=.
rewrite /setitem !(getitemE 0).
case hA: (i < size As)%N; case hB: (i < size Bs)%N;
  case hC: (i < size Cs)%N => //=;
  rewrite /np_inv; case uA: (_ \in unitmx) => //=.
rewrite !getitem_set_nth //=; case uA': (_ \in unitmx) => //=.
by rewrite !(set_nth_dflt _ 0).
Qed.

End UpdateFacts.

Section Invariant.

Variable R : rcfType.
Variable SOLVERS : seq (string * string).
Variable d : nat.
Local Notation K := (K SOLVERS).
Local Notation model_ok := (@model_ok R SOLVERS d).
Implicit Types (m : model R d) (A C : 'M[R]_d) (x v u : 'cV[R]_d).
Implicit Types (i : nat) (r : R).

Lemma sym_outer x : symmetric (x *m x^T).
Proof. by rewrite /symmetric trmx_mul trmxK. Qed.

Lemma symD A C : symmetric A -> symmetric C -> symmetric (A + C).
Proof. by rewrite /symmetric linearD /= => -> ->. Qed.

Lemma symZ (c : R) A : symmetric A -> symmetric (c *: A).
Proof. by rewrite /symmetric linearZ /= => ->. Qed.

Lemma posdef_shift A : possemidef (A - 1%:M) -> posdef A.
Proof.
move=> pC v vn0; have := pC v; rewrite qfB qf1 subr_ge0.
exact/lt_le_trans/dot_gt0.
Qed.

(* (A - 1)^T A^-1 (A - 1) = A - 1 - 1 + A^-1 *)
Lemma shift_sandwich A :
  symmetric A -> A \in unitmx ->
  (A - 1%:M)^T *m invmx A *m (A - 1%:M) = A - 1%:M - 1%:M + invmx A.
Proof.
move=> sA uA; rewrite [(_ - _)^T]linearB /= sA trmx1.
rewrite mulmxBl mulmxV // mul1mx mulmxBr mulmxBl mulVmx // !mulmx1 mul1mx.
by rewrite opprB addrA addrAC.
Qed.

Lemma A0_step A x :
  symmetric A -> possemidef (A - 1%:M) ->
  let C := A - 1%:M in
  let A' := A + x *m x^T in
  let C' := C + x *m x^T in
  let u := invmx A *m x in
  C^T *m invmx A *m C + (x *m x^T - C'^T *m invmx A' *m C')
  = (1 + dot x u)^-1 *: (u *m u^T).
Proof.
move=> sA pC C A' C' u.
have pA := posdef_shift pC; have uA := posdef_unit pA.
have [uA' iA'] := sherman_morrison x sA pA.
have sA' : symmetric A' by apply: symD => //; apply: sym_outer.
have -> : C' = A' - 1%:M by rewrite /C' /C /A' addrAC.
rewrite !shift_sandwich // iA' /A' -/u.
set W := _ *: _; set X := x *m x^T.
rewrite !opprD !opprK !addrA.
suff h (a i p z w : 'M[R]_d) : a - i - i + p + z - a - z + i + i - p + w = w.
  exact: h.
by apply/matrixP => j k; rewrite !mxE; ring.
Qed.

Lemma posdef_rank1 A (c : R) u :
  posdef A -> 0 <= c -> posdef (A + c *: (u *m u^T)).
Proof.
move=> pA c0 v /pA h; rewrite qfD qfZ qf_outer.
by apply: ltr_wpDr => //; rewrite mulr_ge0 // sqr_ge0.
Qed.

Lemma psd_outer A x : possemidef A -> possemidef (A + x *m x^T).
Proof.
by move=> pA v; rewrite qfD qf_outer addr_ge0 // sqr_ge0.
Qed.

Lemma size_set_nth_in (T : Type) (x0 : T) (s : seq T) i (v : T) :
  (i < size s)%N -> size (set_nth x0 s i v) = size s.
Proof. by move=> h; rewrite size_set_nth; apply/maxn_idPr. Qed.

Lemma init_ok : model_ok (init R SOLVERS d).
Proof.
split; rewrite /= ?size_nseq //.
  split; first exact: trmx1.
  by move=> v vn0; rewrite qf1 dot_gt0.
move=> i iK; rewrite !nth_nseq iK subrr; split=> //; first exact: trmx1.
by move=> v; rewrite /qf mulmx0 mul0mx mxE.
Qed.

Lemma update_ok m x i r :
  model_ok m -> (i < K)%N ->
  exists2 m', update m x i r = Some m' & model_ok m'.
Proof.
rewrite update_correct /update_spec.
case: m => a0 b0 As Bs Cs [/= zA zB zC [s0 p0] hi] iK.
rewrite zA zB zC iK /=.
have [sA eC pC] := hi i iK.
have pA : posdef As`_i by apply: posdef_shift; rewrite -eC.
have [uA' iA'] := sherman_morrison x sA pA.
rewrite (posdef_unit pA) uA' /=; eexists; first by [].
split; rewrite /= ?size_set_nth_in ?zA ?zB ?zC //.
  rewrite -addrA eC A0_step -?eC //.
  have c0 : 0 <= (1 + dot x (invmx As`_i *m x))^-1.
    rewrite invr_ge0 addr_ge0 // -qf_dot.
    by apply: posdef_psd; apply: posdef_inv.
  split; last exact: posdef_rank1.
  by apply: symD => //; apply: symZ; apply: sym_outer.
move=> j jK; rewrite !nth_set_nth /=; case: eqP => [_|_]; last exact: hi.
split; first by apply: symD => //; apply: sym_outer.
  by rewrite eC addrAC.
exact: psd_outer.
Qed.

Lemma updates_ok m (us : seq (nat * 'cV[R]_d * R)) :
  model_ok m -> all (fun t => t.1.1 < K)%N us ->
  exists2 m', updates m us = Some m' & model_ok m'.
Proof.
elim: us m => [|[[i x] r] us IH] m okm /=; first by exists m.
case/andP=> iK hus; have [m1 -> ok1] := update_ok x r okm iK.
exact: IH.
Qed.

Lemma model_ok_spd m i :
  model_ok m -> (i < K)%N -> spd (nth 0 (As m) i).
Proof.
case=> _ _ _ _ hi iK; have [sA eC pC] := hi i iK.
by split=> //; apply: posdef_shift; rewrite -eC.
Qed.

End Invariant.

Section ScoreFacts.

Variable R : rcfType.
Variable SOLVERS : seq (string * string).
Variable d : nat.
Variable ALPHA : R.
Local Notation K := (K SOLVERS).
Implicit Types (m : model R d) (x : 'cV[R]_d) (i : nat).

Lemma mapM_some (B : Type) (f : nat -> option B) (g : nat -> B) (s : seq nat) :
  (forall i, i \in s -> f i = Some (g i)) -> mapM f s = Some (map g s).
Proof.
elim: s => [|i s IH] //= h; rewrite h ?mem_head // IH // => j js.
by apply: h; rewrite in_cons js orbT.
Qed.

Lemma getitem_map_iota (B : Type) (g : nat -> B) n i :
  (i < n)%N -> getitem [seq g j | j <- iota 0 n] i = Some (g i).
Proof.
move=> h; case: n h => // n h.
by rewrite (getitemE (g 0)) size_map size_iota h (nth_map 0) ?size_iota // nth_iota.
Qed.

Lemma ps_ofE m x :
  size (As m) = K -> size (Bs m) = K -> size (Cs m) = K ->
  A_0 m \in unitmx -> (forall i, (i < K)%N -> nth 0 (As m) i \in unitmx) ->
  ps_of SOLVERS ALPHA m x
  = Some [seq (score_spec ALPHA m i x)%:M | i <- iota 0 K].
Proof.
move=> zA zB zC u0 uA; rewrite /ps_of /beta_of /np_inv u0 /=.
have -> : mapM (theta_of m (invmx (A_0 m) *m B_0 m)) (iota 0 K)
          = Some [seq theta_spec m i | i <- iota 0 K].
  apply: mapM_some => i; rewrite mem_iota /= add0n => iK.
  by rewrite /theta_of !(getitemE 0) zA zB zC iK /= /np_inv uA.
have -> : mapM (ss_of m x) (iota 0 K)
          = Some [seq (s_spec m i x)%:M | i <- iota 0 K].
  apply: mapM_some => i; rewrite mem_iota /= add0n => iK.
  rewrite /ss_of !(getitemE 0) zA zC iK /= /np_inv u0 uA //=.
  congr Some; rewrite [LHS]mx11_scalar /s_spec; congr (_%:M).
  by rewrite -!scalemxAl.
apply: mapM_some => i; rewrite mem_iota /= add0n => iK.
rewrite !getitem_map_iota //=; congr Some.
rewrite [LHS]mx11_scalar /score_spec /predicted; congr (_%:M).
rewrite [LHS]mxE [X in _ + X = _]mxE [X in _ + _ * X]mxE.
by rewrite [_%:M 0 0]mxE ?eqxx ?mulr1n.
Qed.

Lemma rankE m x :
  size (As m) = K -> size (Bs m) = K -> size (Cs m) = K ->
  A_0 m \in unitmx -> (forall i, (i < K)%N -> nth 0 (As m) i \in unitmx) ->
  rank SOLVERS ALPHA m x
  = Some (argsort [seq score_spec ALPHA m i x | i <- iota 0 K]).
Proof.
move=> zA zB zC u0 uA; rewrite /rank ps_ofE //= -map_comp.
congr (Some (argsort _)); apply: eq_map => i /=.
by rewrite mxE ?eqxx ?mulr1n.
Qed.

Lemma model_ok_units m :
  model_ok SOLVERS m ->
  A_0 m \in unitmx /\ (forall i, (i < K)%N -> nth 0 (As m) i \in unitmx).
Proof.
move=> okm; have [_ _ _ [_ p0] _] := okm; split; first exact: posdef_unit.
by move=> i iK; have [_ /posdef_unit] := model_ok_spd okm iK.
Qed.

Lemma rank_ok m x :
  model_ok SOLVERS m ->
  rank SOLVERS ALPHA m x
  = Some (argsort [seq score_spec ALPHA m i x | i <- iota 0 K]).
Proof.
move=> okm; have [u0 uA] := model_ok_units okm.
by have [zA zB zC _ _] := okm; apply: rankE.
Qed.

Lemma perm_argsort (keys : seq R) :
  perm_eq (argsort keys) (iota 0 (size keys)).
Proof. by rewrite /argsort perm_sort. Qed.

Lemma argsort_lt (keys : seq R) i :
  i \in argsort keys -> (i < size keys)%N.
Proof. by rewrite (perm_mem (perm_argsort keys)) mem_iota. Qed.

Lemma sorted_argsort (keys : seq R) :
  sorted (fun i j => nth 0 keys i <= nth 0 keys j) (argsort keys).
Proof. by apply: sort_sorted => i j; apply: le_total. Qed.

(* equal keys keep their index order *)
Lemma argsort_const (keys : seq R) (c : R) :
  all (pred1 c) keys -> argsort keys = iota 0 (size keys).
Proof.
move=> /all_nthP h; rewrite /argsort.
apply: (@sorted_sort_in _ [pred i | (i < size keys)%N]).
- by move=> j i k /= _ _ _; apply: le_trans.
- by apply/allP => i; rewrite mem_iota.
have: all [pred i | (i < size keys)%N] (iota 0 (size keys)).
  by apply/allP => i; rewrite mem_iota.
move: (iota 0 _) => s; elim: s => [|i [|j s] IH] //= /and3P [iK jK hs].
rewrite (eqP (h 0 _ iK)) (eqP (h 0 _ jK)) lexx /=.
by apply: IH; rewrite /= jK.
Qed.

End ScoreFacts.

Section DispatchFacts.

Variable R : rcfType.
Variable SOLVERS : seq (string * string).
Variable d : nat.
Variables TIMEOUT ALPHA : R.
Variable probe : string -> 'cV[R]_d.
Variable harness : string -> string -> string -> process R.

Local Notation K := (K SOLVERS).
Local Notation res_at := (res_at SOLVERS TIMEOUT harness).
Local Notation solves := (solves SOLVERS TIMEOUT harness).
Local Notation tried := (tried SOLVERS TIMEOUT harness).
Local Notation reward_of := (reward_of SOLVERS TIMEOUT).
Local Notation attempts := (attempts SOLVERS TIMEOUT harness).
Local Notation add_strategy := (@add_strategy R SOLVERS d TIMEOUT harness).
Local Notation round := (round SOLVERS TIMEOUT ALPHA probe harness).
Local Notation main := (main SOLVERS TIMEOUT ALPHA probe harness).
Local Notation rounds := (rounds SOLVERS TIMEOUT ALPHA probe harness).
Local Notation order_of := (order_of SOLVERS ALPHA).
Local Notation point_of := (point_of probe).
Local Notation round_updates := (round_updates SOLVERS TIMEOUT harness).
Local Notation model_ok := (@model_ok R SOLVERS d).

Implicit Types (prob : string) (l : seq nat) (st : loop_state R d).

Lemma tried_cons prob i l :
  tried prob (i :: l) = i :: (if solves prob i then [::] else tried prob l).
Proof. by rewrite /tried /=; case: ifP => //= _; rewrite take0. Qed.

Lemma tried_nil prob : tried prob [::] = [::].
Proof. by []. Qed.

Lemma attemptsE prob (dp : 'cV[R]_d) l st :
  all (fun i => i < K)%N l ->
  exists2 st', attempts prob dp l st = Some st' &
    [/\ ls_rewards st' = ls_rewards st
          ++ [seq reward_of (elapsed (res_at prob i)) | i <- tried prob l],
        ls_trace st' = ls_trace st ++ [seq Attempt i | i <- tried prob l],
        ls_elapsed st' = ls_elapsed st
          + \sum_(i <- tried prob l) elapsed (res_at prob i),
        ls_res st' = if l is [::] then ls_res st
                     else Some (res_at prob (last 0%N (tried prob l))) &
        size (ls_solved st') = (size (ls_solved st) + has (solves prob) l)%N].
Proof.
elim: l st => [|i l IH] st.
  by move=> _; exists st => //; rewrite /= !cats0 big_nil addr0 addn0.
rewrite [all _ _]/= => /andP [iK hl].
rewrite tried_cons [attempts _ _ _ _]/=.
rewrite (getitemE (EmptyString, EmptyString)) -/K iK [obind _ _]/=.
have -> : forall T (F : string -> string -> T) (e : string * string),
    (let: (s, solver) := e in F s solver) = F e.1 e.2 by move=> T F [].
rewrite -/(res_at prob i) -/(solves prob i) [has _ _]/=.
case hdef: (solves prob i).
  eexists; first by [].
  by split; rewrite /= ?cats1 ?big_seq1 ?size_rcons ?addn1.
have [st' -> [e1 e2 e3 e4 e5]] := IH (mkLoop
   (ls_elapsed st + elapsed (res_at prob i))
   (Some (nth (EmptyString, EmptyString) SOLVERS i).2)
   (Some (res_at prob i))
   (rcons (ls_rewards st) (reward_of (elapsed (res_at prob i))))
   (ls_solved st) (rcons (ls_trace st) (Attempt i))) hl.
exists st' => //; split.
- by rewrite e1 /= -cats1 -catA.
- by rewrite e2 /= -cats1 -catA.
- by rewrite e3 /= big_cons addrA.
- by rewrite e4 /=; case: (l) => [|j l'] //=; rewrite tried_cons.
by rewrite e5.
Qed.

Lemma add_strategy_nil prob (dp : 'cV[R]_d) sv al tr :
  add_strategy prob dp [::] sv al tr = None.
Proof. by []. Qed.

Lemma add_strategyE prob (dp : 'cV[R]_d) l sv al tr :
  l != [::] -> all (fun i => i < K)%N l ->
  exists sv' al',
    [/\ add_strategy prob dp l sv al tr
        = Some ([seq reward_of (elapsed (res_at prob i)) | i <- tried prob l],
                sv', al', tr ++ [seq Attempt i | i <- tried prob l]),
        size sv' = (size sv + has (solves prob) l)%N &
        size al' = (size al).+1].
Proof.
case: l => // i l _ hl; rewrite /add_strategy.
have [st' -> [e1 e2 _ e4 e5]] :=
  attemptsE prob dp (mkLoop 0 None None [::] sv tr) hl.
rewrite [obind _ (Some st')]/= e4 [obind _ (Some _)]/=.
exists (ls_solved st'); eexists; split; first by rewrite e1 e2.
  by rewrite e5.
by rewrite size_rcons.
Qed.

Lemma mkseq_take (T : Type) (x0 : T) (s : seq T) n :
  (n <= size s)%N -> [seq nth x0 s i | i <- iota 0 n] = take n s.
Proof.
move=> h; apply: (@eq_from_nth _ x0).
  by rewrite size_map size_iota size_takel.
move=> i; rewrite size_map size_iota => ilt.
by rewrite (nth_map 0%N) ?size_iota // nth_iota // add0n nth_take.
Qed.

Lemma update_loopE (choices : seq nat) (rewards : seq R) (x : 'cV[R]_d)
    k n (m : model R d) (tr : seq event) :
  (k + n <= size rewards)%N -> (k + n <= size choices)%N ->
  update_loop choices rewards x (iota k n) (m, tr)
  = (do m' <- updates m
              [seq (nth 0%N choices i, x, nth 0 rewards i) | i <- iota k n];
     Some (m', tr ++ [seq Update (nth 0%N choices i) | i <- iota k n])).
Proof.
elim: n k m tr => [|n IH] k m tr; first by rewrite /= cats0.
rewrite addnS => hr hc /=.
rewrite (getitemE 0%N) (getitemE 0) (leq_trans _ hr) ?(leq_trans _ hc) ?ltnS ?leq_addr //=.
case: (update _ _ _ _) => [m1|] //=.
by rewrite IH ?addSn // -cats1 -catA.
Qed.

Lemma tried_take prob l : tried prob l = take (size (tried prob l)) l.
Proof.
rewrite /tried size_take; case: ltnP => // h.
by rewrite take_oversize // take_size.
Qed.

Lemma tried_size prob l : (size (tried prob l) <= size l)%N.
Proof. by rewrite /tried size_take; case: ltnP => // /ltnW. Qed.

Lemma tried_sub prob l (P : pred nat) : all P l -> all P (tried prob l).
Proof.
move=> /allP h; apply/allP => i; rewrite /tried => /mem_take; exact: h.
Qed.

Lemma tried_before prob l i :
  i \in take (find (solves prob) l) l -> ~~ solves prob i.
Proof.
move=> hi; have hk := hi; rewrite -index_mem in hk.
have kf : (seq.index i (take (find (solves prob) l) l)
           < find (solves prob) l)%N.
  by apply: leq_trans hk _; rewrite size_take; case: ltnP => // /ltnW.
by rewrite -(nth_index 0%N hi) nth_take // before_find.
Qed.

Lemma order_perm (m : model R d) (x : 'cV[R]_d) :
  perm_eq (order_of m x) (iota 0 K).
Proof.
by have := perm_argsort [seq score_spec ALPHA m i x | i <- iota 0 K];
   rewrite size_map size_iota.
Qed.

Lemma order_lt (m : model R d) (x : 'cV[R]_d) :
  all (fun i => i < K)%N (order_of m x).
Proof.
by apply/allP => i; rewrite (perm_mem (order_perm m x)) mem_iota.
Qed.

Lemma order_size (m : model R d) (x : 'cV[R]_d) : size (order_of m x) = K.
Proof. by rewrite (perm_size (order_perm m x)) size_iota. Qed.

Lemma roundE (w : world R d) prob :
  model_ok (mdl w) -> (0 < K)%N ->
  let x := point_of w prob in
  let t := tried prob (order_of (mdl w) x) in
  exists m' lf sv al,
    [/\ round w prob
        = Some (mkWorld m' lf sv al (ctr w).+1
                  (trace w ++ [seq Attempt i | i <- t]
                           ++ [seq Update i | i <- t])),
        updates (mdl w) (round_updates prob x t) = Some m',
        model_ok m' &
        size al = (size (all_ w)).+1].
Proof.
move=> okw K0 x t; rewrite /round rank_ok // -/(point_of w prob) -/x.
rewrite -/(order_of (mdl w) x) [obind _ (Some _)]/=.
set order := order_of _ _ in t *.
have on0 : order != [::] by rewrite -size_eq0 order_size -lt0n.
have et : t = take (size t) order := tried_take prob order.
have [sv [al [-> _ zal]]] :=
  add_strategyE prob x (solved w) (all_ w) (trace w) on0 (order_lt _ _).
rewrite [obind _ (Some _)]/= size_map -/t.
rewrite update_loopE ?add0n ?size_map ?tried_size //.
have -> : [seq (nth 0%N order i, x,
               nth 0 [seq reward_of (elapsed (res_at prob i0)) | i0 <- t] i)
             | i <- iota 0 (size t)] = round_updates prob x t.
  rewrite /round_updates -[in RHS](mkseq_nth 0%N t) /mkseq -map_comp.
  apply/eq_in_map => i; rewrite mem_iota /= add0n => it.
  have -> : nth 0%N t i = nth 0%N order i by rewrite et nth_take.
  by rewrite (nth_map 0%N) // et nth_take.
have -> : [seq Update (nth 0%N order i) | i <- iota 0 (size t)]
          = [seq Update i | i <- t].
  by rewrite [in RHS]et -(mkseq_take 0%N) ?tried_size // -map_comp.
have [m' e okm'] : exists2 m', updates (mdl w) (round_updates prob x t) = Some m'
                     & model_ok m'.
  apply: updates_ok => //; rewrite /round_updates all_map.
  by apply: tried_sub; apply: order_lt.
rewrite e /= catA.
by exists m'; do 3!eexists; split.
Qed.

Lemma rounds_ok (problems : seq string) (w : world R d) :
  model_ok (mdl w) -> (0 < K)%N ->
  exists w',
    [/\ rounds problems w = Some w', model_ok (mdl w'),
        ctr w' = (ctr w + size problems)%N &
        size (all_ w') = (size (all_ w) + size problems)%N].
Proof.
move=> + K0; elim: problems w => [|prob ps IH] w okw /=.
  by exists w; rewrite !addn0.
have [m' [lf [sv [al [-> _ okm' zal]]]]] := roundE prob okw K0.
rewrite [obind _ _]/=; set w1 := mkWorld _ _ _ _ _ _.
have [w' [-> okw' ec ea]] := IH w1 okm'.
by exists w'; split; rewrite // ?ec ?ea /= ?zal addSnnS.
Qed.

Lemma round_empty (w : world R d) prob :
  model_ok (mdl w) -> K = 0%N -> round w prob = None.
Proof.
move=> okw K0; rewrite /round rank_ok // K0 /=.
by rewrite /argsort /=.
Qed.

End DispatchFacts.

Section RewardFacts.

Variable R : rcfType.
Variable SOLVERS : seq (string * string).
Variable TIMEOUT : R.
Local Notation K := (K SOLVERS).
Local Notation reward_of := (reward_of SOLVERS TIMEOUT).
Local Notation run_problem := (run_problem SOLVERS TIMEOUT).

Hypothesis K_gt0 : (0 < K)%N.
Hypothesis T_gt0 : 0 < TIMEOUT.

Let Kr_gt0 : 0 < K%:R :> R.
Proof. by rewrite ltr0n. Qed.

(* the fraction of the per-attempt budget that was used *)
Lemma used_range (e : R) :
  0 <= e <= TIMEOUT / K%:R -> 0 <= K%:R * e / TIMEOUT <= 1.
Proof.
case/andP=> e0 eT; apply/andP; split.
  by rewrite divr_ge0 ?mulr_ge0 // ltW.
by rewrite ler_pdivrMr // mul1r mulrC -ler_pdivlMr.
Qed.

Lemma reward_range (e : R) :
  0 <= e <= TIMEOUT / K%:R -> 0 <= reward_of e <= 1.
Proof.
move=> /used_range /andP [u0 u1]; rewrite /reward_of.
by rewrite exprn_ge0 ?subr_ge0 // exprn_ile1 ?subr_ge0 // gerBl.
Qed.

Lemma reward_full : reward_of (TIMEOUT / K%:R) = 0.
Proof.
rewrite /reward_of mulrCA divff ?gt_eqF // mulr1 divff ?gt_eqF //.
by rewrite subrr expr0n.
Qed.

Lemma reward_instant : reward_of 0 = 1.
Proof. by rewrite /reward_of mulr0 mul0r subr0 expr1n. Qed.

Lemma reward_mono (e1 e2 : R) :
  0 <= e1 -> e1 <= e2 -> e2 <= TIMEOUT / K%:R -> reward_of e2 <= reward_of e1.
Proof.
move=> e10 e12 e2T; rewrite /reward_of.
have /andP [_ u1] : 0 <= K%:R * e2 / TIMEOUT <= 1.
  by apply: used_range; rewrite e2T (le_trans e10).
rewrite lerXn2r ?nnegrE ?subr_ge0 //.
  apply: le_trans u1; rewrite ler_pM2r ?invr_gt0 // ler_pM2l //.
by rewrite lerB // ler_pM2r ?invr_gt0 // ler_pM2l.
Qed.

(* a near-instant solve: the reward is within 4 K e / TIMEOUT of 1 *)
Lemma reward_near1 (e : R) :
  0 <= e <= TIMEOUT / K%:R -> 1 - 4 * (K%:R * e / TIMEOUT) <= reward_of e.
Proof.
move=> /used_range /andP [u0 u1]; rewrite /reward_of.
move: (_ / _) u0 u1 => u u0 u1.
have -> : (1 - u) ^+ 4 = 1 - 4 * u + u ^+ 2 * (6 - 4 * u + u ^+ 2) by ring.
rewrite lerDl mulr_ge0 ?sqr_ge0 //.
have -> : 6 - 4 * u + u ^+ 2 = 2 + (2 - u) ^+ 2 by ring.
by rewrite addr_ge0 ?sqr_ge0.
Qed.

(* line 115 of run_problem *)
Lemma run_problem_elapsed (p : process R) (prob : string) :
  ~~ definitive (result (run_problem p prob)) ->
  elapsed (run_problem p prob) = TIMEOUT / K%:R.
Proof.
rewrite /run_problem; case: p => [|wall out err] //=.
by case: (definitive _).
Qed.

End RewardFacts.

Section PredictionFacts.

Variable R : rcfType.
Variable d : nat.
Implicit Types (A : 'M[R]_d) (x y z u : 'cV[R]_d) (k e : R).

(* theta^T x + beta^T x when the engine's C is its A minus the identity *)
Lemma pred_form A (B beta x : 'cV[R]_d) :
  symmetric A -> A \in unitmx ->
  ((invmx A *m (B - (A - 1%:M) *m beta))^T *m x + beta^T *m x) 0 0
  = dot (invmx A *m x) (B + beta).
Proof.
move=> sA uA; rewrite mxE -/(dot _ x) -/(dot beta x) -dotDl.
rewrite mulmxBl mul1mx opprB addrA mulmxBr mulKmx // subrK.
by rewrite (dot_sym _ _ (sym_inv sA)) dotC.
Qed.

Section Step.

Variables (A0 A : 'M[R]_d) (B0 B x : 'cV[R]_d) (r : R).
Hypothesis sA0 : symmetric A0.
Hypothesis pA0 : posdef A0.
Hypothesis sA : symmetric A.
Hypothesis pC : possemidef (A - 1%:M).

Let C := A - 1%:M.
Let A' := A + x *m x^T.
Let B' := B + r *: x.
Let C' := C + x *m x^T.
Let A0' := A0 + C^T *m invmx A *m C + (x *m x^T - C'^T *m invmx A' *m C').
Let B0' := B0 + C^T *m invmx A *m B + (r *: x - C'^T *m invmx A' *m B').

Let u := invmx A *m x.
Let a := dot x u.
Let c := (1 + a)^-1.
Let w := invmx A0 *m u.
Let b := dot u w.
Let k := c / (1 + c * b).
Let beta := invmx A0 *m B0.
Let p := dot u (B + beta).

Let pA : posdef A. Proof. exact: posdef_shift. Qed.
Let uA : A \in unitmx. Proof. exact: posdef_unit. Qed.
Let uA0 : A0 \in unitmx. Proof. exact: posdef_unit. Qed.

Let a_ge0 : 0 <= a.
Proof. by rewrite /a /u -qf_dot; apply: posdef_psd; apply: posdef_inv. Qed.

Let b_ge0 : 0 <= b.
Proof. by rewrite /b /w -qf_dot; apply: posdef_psd; apply: posdef_inv. Qed.

Let c_gt0 : 0 < c.
Proof. by rewrite invr_gt0 ltr_pwDl. Qed.

Let ca : c + c * a = 1.
Proof. by rewrite /c; field?; rewrite gt_eqF // ltr_pwDl. Qed.

Lemma step_A' :
  A' \in unitmx /\ invmx A' = invmx A - c *: (u *m u^T).
Proof. exact: sherman_morrison. Qed.

Lemma step_u' : invmx A' *m x = c *: u.
Proof.
have [_ ->] := step_A'.
rewrite mulmxBl -scalemxAl outer_mul scalerA -/u.
rewrite -[X in X - _]scale1r -scalerBl; congr (_ *: _).
by rewrite dotC -/a -ca; ring.
Qed.

Lemma step_A0' : A0' = A0 + c *: (u *m u^T).
Proof. by rewrite /A0' -addrA A0_step. Qed.

Lemma step_B0' : B0' = B0 + (c * (r - dot u B)) *: u.
Proof.
have sC : C^T = C by rewrite /C linearB /= sA trmx1.
have sA' : symmetric A' by apply: symD => //; apply: sym_outer.
have eC' : C' = A' - 1%:M by rewrite /C' /C /A' addrAC.
have sC' : C'^T = C' by rewrite eC' linearB /= sA' trmx1.
have [uA' iA'] := step_A'.
rewrite /B0' sC sC' eC' /C !mulmxBl !mul1mx mulmxV // mulmxV // !mul1mx.
rewrite iA' /B' !mulmxBl mulmxDr -scalemxAl outer_mul.
rewrite -!scalemxAr -/u dotDr dotZr (dotC u x) -/a.
move: (invmx A *m B) (dot u B) => PB uB.
rewrite -addrA; congr (_ + _).
apply/colP => j; rewrite !mxE.
have ca' : c * a = 1 - c by rewrite -ca; ring.
by ring: ca'.
Qed.

Let cb : 1 + c * b != 0.
Proof. by rewrite gt_eqF // ltr_pwDl // mulr_ge0 // ltW. Qed.

Lemma step_inv_A0' :
  A0' \in unitmx /\ invmx A0' = invmx A0 - k *: (w *m w^T).
Proof.
rewrite step_A0'.
exact: (@sherman_morrison_gen _ _ A0 u c sA0 pA0 (ltW c_gt0)).
Qed.

Lemma step_beta' : invmx A0' *m B0' = beta + (k * (r - p)) *: w.
Proof.
have [_ ->] := step_inv_A0'; rewrite step_B0'.
rewrite mulmxBl !mulmxDr -!scalemxAl !outer_mul -!scalemxAr -/w -/beta.
have -> : dot w B0 = dot u beta.
  by rewrite /w (dot_sym _ _ (sym_inv sA0)).
rewrite dotZr (dotC w u) -/b /p dotDr.
move: (dot u B) (dot u beta) => uB ub.
rewrite -addrA; congr (_ + _).
apply/colP => j; rewrite !mxE /k.
by field.
Qed.

Lemma step_predicted :
  dot (invmx A' *m x) (B' + invmx A0' *m B0')
  = p + c * (a + k * b) * (r - p).
Proof.
rewrite step_u' step_beta' dotZl /B' !dotDr !dotZr (dotC u x) -/a -/b.
have ep : p = dot u B + dot u beta by rewrite /p dotDr.
have ca' : c * a = 1 - c by rewrite -ca; ring.
move: (dot u B) (dot u beta) (p) ep => uB ub q ->.
by ring: ca'.
Qed.

Let k_ge0 : 0 <= k.
Proof.
by rewrite /k divr_ge0 ?(ltW c_gt0) // addr_ge0 // mulr_ge0 // ltW.
Qed.

Lemma gain_ge0 : 0 <= c * (a + k * b).
Proof. by rewrite mulr_ge0 ?(ltW c_gt0) // addr_ge0 // mulr_ge0. Qed.

Lemma gain_eq0 : (c * (a + k * b) == 0) = (x == 0).
Proof.
apply/idP/idP => [|/eqP x0]; last first.
  have a0 : a = 0 by rewrite /a x0 /dot trmx0 mul0mx mxE.
  have b0 : b = 0 by rewrite /b /u x0 mulmx0 /dot trmx0 mul0mx mxE.
  by rewrite a0 b0 mulr0 addr0 mulr0.
rewrite mulf_eq0 (gt_eqF c_gt0) /= => /eqP h.
apply/negPn/negP => xn0.
have a0 : 0 < a by rewrite /a /u -qf_dot; apply: posdef_inv.
have := ltr_wpDr (mulr_ge0 k_ge0 b_ge0) a0.
by rewrite h ltxx.
Qed.

End Step.

End PredictionFacts.

Section RankOne.

Variable R : rcfType.
Variable d : nat.
Variable x : 'cV[R]_d.

Local Notation n := (dot x x).
Local Notation X := (x *m x^T).
Local Notation lin p q := (p%:M + q *: X).

Lemma outer_x : X *m x = n *: x.
Proof. by rewrite -mulmxA dotE mul_mx_scalar. Qed.

Lemma outer_sq : X *m X = n *: X.
Proof. by rewrite mulmxA outer_x -scalemxAl. Qed.

Lemma lin_x (p q : R) : lin p q *m x = (p + q * n) *: x.
Proof.
by rewrite mulmxDl mul_scalar_mx -scalemxAl outer_x scalerA scalerDl.
Qed.

Lemma lin_mul (p q p' q' : R) :
  lin p q *m lin p' q' = lin (p * p') (p * q' + q * p' + q * q' * n).
Proof.
rewrite mulmxDl !mulmxDr -scalar_mxM !mul_scalar_mx mul_mx_scalar.
rewrite -scalemxAl -scalemxAr outer_sq !scalerA -!addrA -!scalerDl.
by congr (_ + _ *: _); ring.
Qed.

Lemma lin_tr (p q : R) : (lin p q)^T = lin p q.
Proof. by rewrite linearD /= tr_scalar_mx linearZ /= trmx_mul trmxK. Qed.

Lemma linE (p q p' q' : R) : p = p' -> q = q' -> lin p q = lin p' q'.
Proof. by move=> -> ->. Qed.

Lemma lin_inv (p q : R) :
  p != 0 -> p + q * n != 0 ->
  lin p q \in unitmx /\
  invmx (lin p q) = lin p^-1 (- q / (p * (p + q * n))).
Proof.
move=> p0 pq0.
have h : lin p q *m lin p^-1 (- q / (p * (p + q * n))) = 1%:M.
  rewrite lin_mul -[RHS]addr0 -[in RHS](scale0r X); apply: linE.
    by rewrite divff.
  by field; rewrite p0.
have [u _] := mulmx1_unit h; split=> //.
by rewrite -[LHS]mulmx1 -h mulKmx.
Qed.

Lemma x_lin_x (p q : R) : x^T *m lin p q *m x = ((p + q * n) * n)%:M.
Proof. by rewrite -mulmxA lin_x -scalemxAr dotE scale_scalar_mx. Qed.

Lemma n_ge0 : 0 <= n.
Proof. exact: dot_ge0. Qed.

Lemma n1_neq0 : 1 + n != 0.
Proof. by rewrite gt_eqF // ltr_pwDl // n_ge0. Qed.

Lemma n2_neq0 : 1 + 2 * n != 0.
Proof. by rewrite gt_eqF // ltr_pwDl // mulr_ge0 // n_ge0. Qed.

Lemma lin01 : X = lin 0 1.
Proof. by rewrite scale1r -scalemx1 scale0r add0r. Qed.

Lemma lin10 : 1%:M = lin 1 0 :> 'M[R]_d.
Proof. by rewrite scale0r addr0. Qed.

Lemma linD (p q p' q' : R) : lin p q + lin p' q' = lin (p + p') (q + q').
Proof. by rewrite scalerDl raddfD /= addrACA. Qed.

Lemma linN (p q : R) : - lin p q = lin (- p) (- q).
Proof. by rewrite opprD scaleNr raddfN. Qed.

(* the first update of engine i, from the initial model *)
Lemma first_update (SOLVERS : seq (string * string)) (i : nat) (r : R) :
  (i < K SOLVERS)%N ->
  update (init R SOLVERS d) x i r
  = Some (Model (1%:M + (1 + n)^-1 *: X) ((r / (1 + n)) *: x)
            (set_nth 0 (nseq (K SOLVERS) 1%:M) i (1%:M + X))
            (set_nth 0 (nseq (K SOLVERS) 0) i (r *: x))
            (set_nth 0 (nseq (K SOLVERS) 0) i X)).
Proof.
move=> iK; rewrite update_correct /update_spec /= !size_nseq iK /=.
rewrite !nth_nseq iK unitmx1 /= !add0r.
have h11 : 1 + 1 * n != 0 by rewrite mul1r n1_neq0.
have [u1 i1] := lin_inv (oner_neq0 _) h11.
rewrite scale1r in u1 i1; rewrite u1 i1 trmx0 !mul0mx !addr0 add0r.
congr (Some (Model _ _ _ _ _)).
  rewrite {1 2 4}lin01 lin_tr lin_mul lin_mul linN linD -[1%:M in LHS]addr0.
  rewrite -[X in _ + X + _](scale0r X) linD; apply: linE; first by ring.
  by field?; rewrite n1_neq0.
rewrite trmx_mul trmxK -!scalemxAr -mulmxA lin_x -scalemxAr outer_x !scalerA.
rewrite -scalerBl; congr (_ *: _).
by field?; rewrite n1_neq0.
Qed.

Lemma score_init (SOLVERS : seq (string * string)) (ALPHA : R) (i : nat) :
  (i < K SOLVERS)%N ->
  score_spec ALPHA (init R SOLVERS d) i x = ALPHA * Num.sqrt (2 * n).
Proof.
move=> iK; rewrite /score_spec /predicted /s_spec /theta_spec /beta_spec /=.
rewrite !nth_nseq iK invmx1 !mulmx0 !mul0mx subr0 mulmx0 !trmx0 !mul0mx.
rewrite !mulmx1 mulmx0 !mul0mx scaler0 subr0 !addr0 dotE.
rewrite !mxE ?eqxx ?mulr1n add0r; congr (_ * Num.sqrt _).
by ring.
Qed.

Lemma score_first (SOLVERS : seq (string * string)) (ALPHA : R) (i : nat)
    (r : R) (m1 : model R d) :
  (i < K SOLVERS)%N ->
  update (init R SOLVERS d) x i r = Some m1 ->
  score_spec ALPHA m1 i x
  = 2 * r * n / (1 + 2 * n) + ALPHA * Num.sqrt (2 * n / (1 + 2 * n)).
Proof.
move=> iK; rewrite first_update // => -[<-].
rewrite /score_spec /predicted /s_spec /theta_spec /beta_spec /=.
rewrite !nth_set_nth /= eqxx.
have h1 : 1 + 1 * n != 0 by rewrite mul1r n1_neq0.
have hc : 1 + (1 + n)^-1 * n != 0.
  by rewrite gt_eqF // ltr_pwDl // mulr_ge0 ?invr_ge0 ?n_ge0 // addr_ge0 ?n_ge0.
have [_ iA] := lin_inv (oner_neq0 _) h1.
have [_ iA0] := lin_inv (oner_neq0 _) hc.
rewrite scale1r in iA; rewrite iA iA0 ![X^T]trmx_mul !trmxK -!mulmxA.
rewrite !(lin_x, dotE, mul_mx_scalar, =^~ scalemxAr, scalerA).
rewrite -scalerBl.
rewrite !(lin_x, dotE, mul_mx_scalar, =^~ scalemxAr, scalerA).
rewrite !(dotZl, dotZr) !mxE ?eqxx ?mulr1n.
by congr (_ + ALPHA * Num.sqrt _); field?; rewrite ?n1_neq0 ?n2_neq0.
Qed.

End RankOne.


Section PredictionModel.

Variable R : rcfType.
Variable SOLVERS : seq (string * string).
Variable d : nat.
Local Notation K := (K SOLVERS).
Local Notation model_ok := (@model_ok R SOLVERS d).
Implicit Types (m : model R d) (x : 'cV[R]_d) (i : nat) (r : R).

Lemma predicted_ok m i x :
  model_ok m -> (i < K)%N ->
  predicted m i x
  = dot (invmx (nth 0 (As m) i) *m x)
        (nth 0 (Bs m) i + invmx (A_0 m) *m B_0 m).
Proof.
move=> okm iK; have [_ _ _ _ /(_ i iK) [sA eC pC]] := okm.
have [_ /(_ i iK) uA] := model_ok_units okm.
by rewrite /predicted /theta_spec /beta_spec eC pred_form.
Qed.

Lemma predicted_update m x i r :
  model_ok m -> (i < K)%N ->
  exists2 m', update m x i r = Some m' &
    predicted m' i x
    = predicted m i x + gain m i x * (r - predicted m i x).
Proof.
move=> okm iK; have [m' e okm'] := update_ok x r okm iK.
exists m' => //; rewrite (predicted_ok _ okm') // (predicted_ok _ okm) //.
move: e; rewrite update_correct /update_spec.
have [zA zB zC [s0 p0] /(_ i iK) [sA eC pC]] := okm.
rewrite zA zB zC iK /=; case: ifP => // _ [<-] /=.
rewrite !nth_set_nth /= eqxx eC.
rewrite -> eC in pC.
by rewrite (@step_predicted R d (A_0 m) (nth 0 (As m) i) (B_0 m) (nth 0 (Bs m) i) x r s0 p0 sA pC).
Qed.

Lemma gain_model_ge0 m i x : model_ok m -> (i < K)%N -> 0 <= gain m i x.
Proof.
move=> okm iK; have [_ _ _ [s0 p0] /(_ i iK) [sA eC pC]] := okm.
by rewrite -> eC in pC; exact: (gain_ge0 x s0 p0 sA pC).
Qed.

Lemma gain_model_eq0 m i x :
  model_ok m -> (i < K)%N -> (gain m i x == 0) = (x == 0).
Proof.
move=> okm iK; have [_ _ _ [s0 p0] /(_ i iK) [sA eC pC]] := okm.
by rewrite -> eC in pC; exact: (gain_eq0 x s0 p0 sA pC).
Qed.

End PredictionModel.

Section ExampleFacts.

Import Shipped Examples.

Variable R : rcfType.

Local Notation x10 := (x10 R).
Local Notation x38 := (x38 R).

Lemma x10_dot : dot x10 x10 = 1.
Proof.
by rewrite dot_sum !big_ord_recl big_ord0 !mxE /= mulr1 mulr0 !addr0.
Qed.

Lemma x10_outer : x10 *m x10^T = mx2 1 0 0 0.
Proof.
apply/matrixP => i j; rewrite !mxE big_ord1 !mxE.
by case: i j => [[|[|i]] hi] [[|[|j]] hj] //=; rewrite ?mulr0 ?mul0r ?mulr1.
Qed.

Lemma scenario_reward : reward_of SOLVERS2 (10 : R) 2 = 1296 / 10000.
Proof. by rewrite /reward_of /K /=; field. Qed.

Lemma scenario_update :
  update (init R SOLVERS2 2) x10 0 (1296 / 10000)
  = Some (Model (mx2 (3 / 2) 0 0 1) (cv2 (648 / 10000) 0)
            [:: mx2 2 0 0 1; 1%:M] [:: cv2 (1296 / 10000) 0; 0]
            [:: mx2 1 0 0 0; 0]).
Proof.
rewrite first_update // x10_dot x10_outer /=.
congr (Some (Model _ _ [:: _; _] [:: _; _] _)).
- apply/matrixP => i j; rewrite !mxE.
  case: i j => [[|[|i]] hi] [[|[|j]] hj] //=; rewrite ?mulr0 ?addr0 //.
  by field.
- apply/matrixP => i j; rewrite !mxE.
  case: i j => [[|[|i]] hi] [[|[|j]] hj] //=; rewrite ?mulr1 ?mulr0 //.
  by field.
- apply/matrixP => i j; rewrite !mxE.
  by case: i j => [[|[|i]] hi] [[|[|j]] hj] //=; rewrite ?addr0 ?add0r.
- apply/matrixP => i j; rewrite !mxE.
  by case: i j => [[|[|i]] hi] [[|[|j]] hj] //=; rewrite ?mulr1 ?mulr0.
Qed.

Lemma x38_dot : dot x38 x38 = 9 / 32.
Proof.
rewrite dot_sum /d /= !big_ord_recl big_ord0 !mxE /= !mulr0 !addr0.
by field.
Qed.

Lemma sqrt_sq (a b : R) : 0 <= b -> a = b ^+ 2 -> Num.sqrt a = b.
Proof. by move=> b0 ->; rewrite sqrtr_sqr ger0_norm. Qed.

Lemma score_at_zero (n : nat) (ALPHA : R) (m : model R n) i :
  score_spec ALPHA m i 0 = 0.
Proof.
rewrite /score_spec /predicted /s_spec !mulmx0 scaler0 subr0 !addr0.
by rewrite !mxE sqrtr0 mulr0 addr0.
Qed.

Lemma predicted_init (S : seq (string * string)) (n : nat)
    (x : 'cV[R]_n) i :
  predicted (init R S n) i x = 0.
Proof.
rewrite /predicted /theta_spec /beta_spec /= mulmx0 trmx0 mul0mx addr0.
have -> : nth 0 (nseq (K S) (0 : 'cV[R]_n)) i = 0.
  by rewrite nth_nseq; case: ifP.
have -> : nth 0 (nseq (K S) (0 : 'M[R]_n)) i = 0.
  by rewrite nth_nseq; case: ifP.
by rewrite mulmx0 subr0 mulmx0 trmx0 mul0mx mxE.
Qed.

Lemma x38_counter :
  exists2 m1, update (init R SOLVERS d) x38 0 (393 / 400) = Some m1 &
    393 / 400 != predicted (init R SOLVERS d) 0 x38 /\
    score_spec (ALPHA R) m1 0 x38
    = score_spec (ALPHA R) (init R SOLVERS d) 0 x38.
Proof.
have [m1 e _] := @update_ok R SOLVERS d (init R SOLVERS d) x38 0
                   (393 / 400) (init_ok _ _ _) isT.
exists m1 => //; split.
  by rewrite predicted_init mulf_neq0 ?invr_neq0 ?pnatr_eq0.
rewrite (score_first _ _ e) // score_init // x38_dot.
have -> : Num.sqrt (2 * (9 / 32) : R) = 3 / 4.
  by apply: sqrt_sq; [rewrite divr_ge0 ?ler0n | field].
have -> : Num.sqrt (2 * (9 / 32) / (1 + 2 * (9 / 32)) : R) = 3 / 5.
  by apply: sqrt_sq; [rewrite divr_ge0 ?ler0n | field].
by rewrite /ALPHA; field.
Qed.

End ExampleFacts.

Section RunFacts.

Import Shipped Examples.

Variable R : rcfType.

(* at the initial model every engine has the same score, and rank keeps
   the engines in index order *)
Lemma order_init (S : seq (string * string)) (n : nat) (alpha : R)
    (x : 'cV[R]_n) :
  order_of S alpha (init R S n) x = iota 0 (K S).
Proof.
rewrite /order_of (@argsort_const _ _ (alpha * Num.sqrt (2 * dot x x))).
  rewrite all_map; apply/allP => i; rewrite mem_iota add0n /= => iK.
  by rewrite score_init.
by rewrite size_map size_iota.
Qed.

(* one round of the shipped configuration in which every engine times
   out: four attempts, then four updates *)
Lemma timeout_round :
  exists2 w,
    main SOLVERS (TIMEOUT R) (ALPHA R) (zero_probe R d) (all_timeout R)
      [:: "p"%string] = Some w &
    trace w = [:: Attempt 0; Attempt 1; Attempt 2; Attempt 3;
                  Update 0; Update 1; Update 2; Update 3].
Proof.
have [m' [lf [sv [al [e _ _ _]]]]] :=
  @roundE R SOLVERS d (TIMEOUT R) (ALPHA R) (zero_probe R d) (all_timeout R)
    (start R SOLVERS d) "p"%string (init_ok R SOLVERS d) isT.
rewrite /main /= e /=; eexists; first by [].
by rewrite /= order_init.
Qed.

(* one round of the shipped portfolio with feature vectors of any length
   and any ALPHA *)
Lemma unchecked_round (n : nat) (alpha : R) :
  exists2 w,
    main SOLVERS (TIMEOUT R) alpha (zero_probe R n) (all_timeout R)
      [:: "p"%string] = Some w &
    ctr w = 1%N.
Proof.
have [w [e _ ec _]] :=
  @rounds_ok R SOLVERS n (TIMEOUT R) alpha (zero_probe R n) (all_timeout R)
    [:: "p"%string] (start R SOLVERS n) (init_ok R SOLVERS n) isT.
by exists w.
Qed.

Lemma shipped_T_gt0 : 0 < TIMEOUT R.
Proof. by rewrite /TIMEOUT ltr0n. Qed.

Lemma shipped_budget : TIMEOUT R / (K SOLVERS)%:R = 15.
Proof. by rewrite /TIMEOUT /K /=; field. Qed.

Lemma shipped_3_15 : (3 : R) <= 15.
Proof. by rewrite ler_nat. Qed.

Lemma shipped_15_budget : 15 <= TIMEOUT R / (K SOLVERS)%:R.
Proof. by rewrite shipped_budget. Qed.

Lemma init_units (S : seq (string * string)) (n : nat) i :
  (i < K S)%N -> nth 0 (As (init R S n)) i \in unitmx.
Proof. by have [_ h] := model_ok_units (init_ok R S n); exact: h. Qed.

End RunFacts.

(* ===================================================================== *)
(* The claims of the specification                                       *)
(* ===================================================================== *)

Section Claims.

Variable R : rcfType.
Variable SOLVERS : seq (string * string).
Variable d : nat.
Variables TIMEOUT ALPHA : R.
Variable probe : string -> 'cV[R]_d.
Variable harness : string -> string -> string -> process R.

Local Notation K := (K SOLVERS).
Local Notation res_at := (res_at SOLVERS TIMEOUT harness).
Local Notation solves := (solves SOLVERS TIMEOUT harness).
Local Notation run_problem := (run_problem SOLVERS TIMEOUT).
Local Notation add_strategy := (@add_strategy R SOLVERS d TIMEOUT harness).
Local Notation model_ok := (@model_ok R SOLVERS d).

(** C2: when every list of the model has one entry per engine and A_0 and
    the engines' A are invertible, the scores computed by main are, for
    every engine i, theta_i^T x + beta^T x + ALPHA * sqrt(s_i) with
    beta = A_0^-1 B_0, theta_i = A_i^-1 (B_i - C_i beta) and s_i the
    four-term quadratic form, every inverse being the inverse of the
    matrix the model holds when the score is computed; the shipped ALPHA
    is positive. *)
Theorem score_formula (m : model R d) (x : 'cV[R]_d) :
  size (As m) = K -> size (Bs m) = K -> size (Cs m) = K ->
  A_0 m \in unitmx -> (forall i, (i < K)%N -> nth 0 (As m) i \in unitmx) ->
  0 < Shipped.ALPHA R /\
  exists2 ps, ps_of SOLVERS ALPHA m x = Some ps &
    size ps = K /\
    forall i, (i < K)%N ->
      let beta := invmx (A_0 m) *m B_0 m in
      let Ai := invmx (nth 0 (As m) i) in
      let A0i := invmx (A_0 m) in
      let C := nth 0 (Cs m) i in
      let theta := Ai *m (nth 0 (Bs m) i - C *m beta) in
      let s := x^T *m A0i *m x - 2 *: (x^T *m A0i *m C^T *m Ai *m x)
               + x^T *m Ai *m x
               + x^T *m Ai *m C *m A0i *m C^T *m Ai *m x in
      (nth 0 ps i) 0 0
      = (theta^T *m x) 0 0 + (beta^T *m x) 0 0 + ALPHA * Num.sqrt (s 0 0).
Proof.
move=> zA zB zC u0 uA; split.
  by rewrite /Shipped.ALPHA divr_gt0 // ltr0n.
rewrite ps_ofE //; eexists; first by [].
rewrite size_map size_iota; split=> // i iK /=.
rewrite (nth_map 0%N) ?size_iota // nth_iota // add0n.
rewrite [_%:M 0 0]mxE ?eqxx ?mulr1n.
by rewrite /score_spec /predicted /s_spec /theta_spec /beta_spec [in LHS]mxE.
Qed.

(** C3: on a model that satisfies the invariant, rank returns, for every
    feature vector, a list in which every engine index below K occurs
    exactly once, in ascending order of score. *)
Theorem rank_permutation (m : model R d) (x : 'cV[R]_d) :
  model_ok m ->
  exists2 order, rank SOLVERS ALPHA m x = Some order &
    [/\ perm_eq order (iota 0 K), uniq order, size order = K &
        sorted (fun i j => score_spec ALPHA m i x <= score_spec ALPHA m j x)
          order].
Proof.
move=> okm; rewrite rank_ok //; eexists; first by [].
set keys := [seq _ | i <- _].
have zk : size keys = K by rewrite size_map size_iota.
have hp : perm_eq (argsort keys) (iota 0 K) by rewrite -zk perm_argsort.
split=> //; first by rewrite (perm_uniq hp) iota_uniq.
  by rewrite (perm_size hp) size_iota.
have := sorted_argsort keys.
rewrite (@eq_in_sorted _ [pred i | (i < K)%N] _
          (fun i j => score_spec ALPHA m i x <= score_spec ALPHA m j x)) //.
  move=> i j /= iK jK.
  by rewrite !(nth_map 0%N) ?size_iota // !nth_iota.
by apply/allP => i; rewrite (perm_mem hp) mem_iota.
Qed.

(** C6: from the initial model, any sequence of updates of engines below
    K, with arbitrary feature vectors and rewards, succeeds, and in the
    model it reaches (the initial one for the empty sequence) A_0 and
    every engine's A are symmetric, positive-definite and invertible. *)
Theorem spd_invariant (us : seq (nat * 'cV[R]_d * R)) :
  all (fun t => t.1.1 < K)%N us ->
  exists2 m, updates (init R SOLVERS d) us = Some m &
    [/\ spd (A_0 m), A_0 m \in unitmx &
        forall i, (i < K)%N ->
          spd (nth 0 (As m) i) /\ nth 0 (As m) i \in unitmx].
Proof.
move=> hus; have [m e okm] := updates_ok (init_ok R SOLVERS d) hus.
exists m => //; have [u0 uA] := model_ok_units okm.
have [_ _ _ s0 _] := okm; split=> // i iK; split; last exact: uA.
exact: (model_ok_spd okm iK).
Qed.

(** C8: on a non-empty order of valid engine indices add_strategy never
    raises; it attempts the engines of the order up to and including the
    first whose answer is sat or unsat, all of them when none is, and
    returns one reward per attempted engine, whatever the other answers
    (unknown, timeout, error) were. *)
Theorem dispatch_stops_at_first_solve (prob : string) (x : 'cV[R]_d)
    (order : seq nat) (sv al : seq (Solved_Problem R d)) (tr : seq event) :
  order != [::] -> all (fun i => i < K)%N order ->
  let n := (find (fun i => definitive (result (res_at prob i))) order).+1 in
  exists sv' al',
    add_strategy prob x order sv al tr
    = Some ([seq reward_of SOLVERS TIMEOUT (elapsed (res_at prob i))
               | i <- take n order],
            sv', al', tr ++ [seq Attempt i | i <- take n order])
    /\ (forall i, i \in take n.-1 order ->
          ~~ definitive (result (res_at prob i))).
Proof.
move=> on0 hl n.
have [sv' [al' [e _ _]]] :=
  @add_strategyE R SOLVERS d TIMEOUT harness prob x order sv al tr on0 hl.
exists sv', al'; split; first exact: e.
by move=> i /tried_before.
Qed.

(** C5: with a non-empty portfolio, a positive TIMEOUT and an elapsed time
    between 0 and the per-attempt budget TIMEOUT / K, the reward of an
    attempt is (1 - K e / TIMEOUT)^4; it is 0 at the full budget, 1 at
    elapsed time 0 and at least 1 - 4 K e / TIMEOUT, it does not increase
    when the elapsed time grows, and it lies between 0 and 1. *)
Theorem reward_properties (e1 e2 : R) :
  (0 < K)%N -> 0 < TIMEOUT ->
  0 <= e1 -> e1 <= e2 -> e2 <= TIMEOUT / K%:R ->
  [/\ reward_of SOLVERS TIMEOUT e2 = (1 - K%:R * e2 / TIMEOUT) ^+ 4,
      reward_of SOLVERS TIMEOUT (TIMEOUT / K%:R) = 0,
      reward_of SOLVERS TIMEOUT 0 = 1 /\
      1 - 4 * (K%:R * e2 / TIMEOUT) <= reward_of SOLVERS TIMEOUT e2,
      reward_of SOLVERS TIMEOUT e2 <= reward_of SOLVERS TIMEOUT e1 &
      0 <= reward_of SOLVERS TIMEOUT e2 <= 1].
Proof.
move=> K0 T0 e10 e12 e2T.
have e2r : 0 <= e2 <= TIMEOUT / K%:R by rewrite e2T (le_trans e10).
split=> //; first exact: reward_full.
- by split; [exact: reward_instant | exact: reward_near1].
- exact: reward_mono.
exact: reward_range.
Qed.

(** C9: with a non-empty portfolio and a positive TIMEOUT, whatever the
    subprocess did and however long it ran, a Result whose answer is
    neither sat nor unsat records the elapsed time TIMEOUT / K, and the
    reward computed from it is 0. *)
Theorem nonsolve_reward_zero (p : process R) (prob : string) :
  (0 < K)%N -> 0 < TIMEOUT ->
  ~~ definitive (result (run_problem p prob)) ->
  elapsed (run_problem p prob) = TIMEOUT / K%:R /\
  reward_of SOLVERS TIMEOUT (elapsed (run_problem p prob)) = 0.
Proof.
move=> K0 T0 /run_problem_elapsed ->; split=> //; exact: reward_full.
Qed.

(** C4 (amended): in a round started on a model that satisfies the
    invariant, with a non-empty portfolio, every attempt of the round
    comes first, in rank order up to the first solve, and the updates come
    after all of them: one update per attempted engine, in the order
    attempted, each with the reward of that engine's attempt. *)
Theorem updates_follow_attempts (w : world R d) (prob : string) :
  model_ok (mdl w) -> (0 < K)%N ->
  let x := point_of probe w prob in
  let t := tried SOLVERS TIMEOUT harness prob
             (order_of SOLVERS ALPHA (mdl w) x) in
  exists2 w', round SOLVERS TIMEOUT ALPHA probe harness w prob = Some w' &
    trace w' = trace w ++ [seq Attempt i | i <- t] ++ [seq Update i | i <- t]
    /\ updates (mdl w)
         [seq (i, x, reward_of SOLVERS TIMEOUT (elapsed (res_at prob i)))
            | i <- t]
       = Some (mdl w').
Proof.
move=> okw K0 x t.
have [m' [lf [sv [al [e eu _ _]]]]] :=
  @roundE R SOLVERS d TIMEOUT ALPHA probe harness w prob okw K0.
by eexists; first exact: e.
Qed.

(** C7 (amended): main checks no configuration.  With a non-empty
    portfolio it processes every problem, whatever the length d of the
    feature vectors and the value of ALPHA; with an empty portfolio it
    returns normally when there is no problem and otherwise raises in its
    first round. *)
Theorem no_configuration_check (prob : string) (problems : seq string) :
  ((0 < K)%N ->
     exists2 w, main SOLVERS TIMEOUT ALPHA probe harness problems = Some w &
       ctr w = size problems /\ size (all_ w) = size problems) /\
  (K = 0%N ->
     main SOLVERS TIMEOUT ALPHA probe harness [::]
       = Some (start R SOLVERS d) /\
     main SOLVERS TIMEOUT ALPHA probe harness (prob :: problems) = None).
Proof.
split=> [K0|K0].
  have [w [e _ ec ea]] := @rounds_ok R SOLVERS d TIMEOUT ALPHA probe harness
    problems (start R SOLVERS d) (init_ok R SOLVERS d) K0.
  by exists w.
split=> //; rewrite /main /= round_empty //; exact: init_ok.
Qed.

(** C1: for every model, feature vector x, engine i and reward r, the body
    of the update loop computes what the seven steps of the specification
    give: the two global corrections made first read the engine's A, B and
    C from before its rank-one step, those made last read the new ones
    (update_spec); in a round, these updates are applied for the engines
    that were attempted, with the feature vector of the round and the
    reward of each attempt.  In the scenario with two engines, two
    features, x = [1, 0], two seconds elapsed and a budget of ten, the
    reward is 0.1296, and the update of engine 0 from the initial model
    gives A_0 = [[3/2, 0], [0, 1]], B_0 = [0.0648, 0], and for engine 0
    A = [[2, 0], [0, 1]], B = [0.1296, 0], C = [[1, 0], [0, 0]]. *)
Theorem update_order :
  [/\ forall (m : model R d) (x : 'cV[R]_d) (i : nat) (r : R),
        update m x i r = update_spec m x i r,
      forall (w : world R d) (prob : string),
        model_ok (mdl w) -> (0 < K)%N ->
        let x := point_of probe w prob in
        let t := tried SOLVERS TIMEOUT harness prob
                   (order_of SOLVERS ALPHA (mdl w) x) in
        exists2 w',
          round SOLVERS TIMEOUT ALPHA probe harness w prob = Some w' &
          updates (mdl w)
            [seq (i, x, reward_of SOLVERS TIMEOUT (elapsed (res_at prob i)))
            | i <- t]
          = Some (mdl w'),
      reward_of Examples.SOLVERS2 (10 : R) 2 = 1296 / 10000 &
      update (init R Examples.SOLVERS2 2) (Examples.x10 R) 0
        (reward_of Examples.SOLVERS2 (10 : R) 2)
      = Some (Model (Examples.mx2 (3 / 2) 0 0 1)
                (Examples.cv2 (648 / 10000) 0)
                [:: Examples.mx2 2 0 0 1; 1%:M]
                [:: Examples.cv2 (1296 / 10000) 0; 0]
                [:: Examples.mx2 1 0 0 0; 0])].
Proof.
split; first exact: update_correct.
- move=> w prob okw K0 x t.
  have [m' [lf [sv [al [e eu _ _]]]]] :=
    @roundE R SOLVERS d TIMEOUT ALPHA probe harness w prob okw K0.
  by eexists; first exact: e.
- exact: scenario_reward.
by rewrite scenario_reward scenario_update.
Qed.

(** C10 (amended): on a model that satisfies the invariant, update(i, x, r)
    succeeds and moves the predicted value of engine i at x by
    gain * (r - predicted), where gain does not depend on r, is not
    negative, and is zero exactly when x is the zero vector; so the
    predicted value stays the same exactly when r equals the prediction
    made before the update or x is zero. *)
Theorem prediction_moves_with_surprise (m : model R d) (x : 'cV[R]_d)
    (i : nat) (r : R) :
  model_ok m -> (i < K)%N ->
  exists2 m', update m x i r = Some m' &
    [/\ predicted m' i x
        = predicted m i x + gain m i x * (r - predicted m i x),
        0 <= gain m i x,
        (gain m i x == 0) = (x == 0) &
        (predicted m' i x == predicted m i x)
        = (r == predicted m i x) || (x == 0)].
Proof.
move=> okm iK; have [m' e ep] := predicted_update x r okm iK.
exists m' => //; split=> //; first exact: (gain_model_ge0 x okm iK).
  exact: (gain_model_eq0 x okm iK).
rewrite ep -subr_eq0 addrC addKr mulf_eq0 subr_eq0 orbC.
by rewrite (gain_model_eq0 x okm iK).
Qed.

End Claims.

(* ===================================================================== *)
(* Closed examples, in the real algebraic numbers                        *)
(* ===================================================================== *)

Lemma score_formula_witness :
  0 < Shipped.ALPHA algR /\
  exists2 ps,
    ps_of Shipped.SOLVERS (Shipped.ALPHA algR)
      (init algR Shipped.SOLVERS Shipped.d) (Examples.x38 algR) = Some ps &
    size ps = K Shipped.SOLVERS.
Proof.
have [h [ps e [z _]]] :=
  @score_formula algR Shipped.SOLVERS Shipped.d (Shipped.ALPHA algR)
    (init algR Shipped.SOLVERS Shipped.d) (Examples.x38 algR)
    (size_nseq _ _) (size_nseq _ _) (size_nseq _ _) (unitmx1 _ _)
    (@init_units algR Shipped.SOLVERS Shipped.d).
split; first exact: h.
exists ps; [exact: e | exact: z].
Defined.

Lemma rank_permutation_witness :
  exists2 order,
    rank Shipped.SOLVERS (Shipped.ALPHA algR)
      (init algR Shipped.SOLVERS Shipped.d) (Examples.x38 algR) = Some order &
    perm_eq order (iota 0 (K Shipped.SOLVERS)) /\ uniq order.
Proof.
have [order e [hp hu _ _]] :=
  @rank_permutation algR Shipped.SOLVERS Shipped.d (Shipped.ALPHA algR)
    (init algR Shipped.SOLVERS Shipped.d) (Examples.x38 algR)
    (init_ok algR Shipped.SOLVERS Shipped.d).
exists order; [exact: e | split; [exact: hp | exact: hu]].
Defined.

Lemma spd_invariant_witness :
  exists2 m,
    updates (init algR Shipped.SOLVERS Shipped.d)
      [:: (0%N, Examples.x38 algR, 1 / 2); (3%N, Examples.x38 algR, 0)]
    = Some m &
    spd (A_0 m) /\ A_0 m \in unitmx.
Proof.
have [m e [hs hu _]] :=
  @spd_invariant algR Shipped.SOLVERS Shipped.d
    [:: (0%N, Examples.x38 algR, 1 / 2); (3%N, Examples.x38 algR, 0)] isT.
exists m; [exact: e | split; [exact: hs | exact: hu]].
Defined.

Lemma dispatch_stops_at_first_solve_witness :
  exists sv' al',
    add_strategy Shipped.SOLVERS (Shipped.TIMEOUT algR)
      (Examples.all_timeout algR) "p" (Examples.x38 algR)
      [:: 0; 1; 2; 3]%N [::] [::] [::]
    = Some ([seq reward_of Shipped.SOLVERS (Shipped.TIMEOUT algR)
                   (elapsed (res_at Shipped.SOLVERS (Shipped.TIMEOUT algR)
                               (Examples.all_timeout algR) "p" i))
               | i <- [:: 0; 1; 2; 3]%N],
            sv', al', [:: Attempt 0; Attempt 1; Attempt 2; Attempt 3]).
Proof.
have [sv' [al' [e _]]] :=
  @dispatch_stops_at_first_solve algR Shipped.SOLVERS Shipped.d
    (Shipped.TIMEOUT algR) (Examples.all_timeout algR) "p"
    (Examples.x38 algR) [:: 0; 1; 2; 3]%N [::] [::] [::] isT isT.
exists sv', al'; exact: e.
Defined.

Lemma reward_properties_witness :
  reward_of Shipped.SOLVERS (Shipped.TIMEOUT algR) 15
  <= reward_of Shipped.SOLVERS (Shipped.TIMEOUT algR) 3 /\
  0 <= reward_of Shipped.SOLVERS (Shipped.TIMEOUT algR) 15 <= 1.
Proof.
have [_ _ _ hm hr] :=
  @reward_properties algR Shipped.SOLVERS (Shipped.TIMEOUT algR) 3 15 isT
    (shipped_T_gt0 algR) (ler0n algR 3) (shipped_3_15 algR)
    (shipped_15_budget algR).
split; [exact: hm | exact: hr].
Defined.

Lemma nonsolve_reward_zero_witness :
  elapsed (run_problem Shipped.SOLVERS (Shipped.TIMEOUT algR)
             (Exited 1 "unknown" "") "p")
  = Shipped.TIMEOUT algR / (K Shipped.SOLVERS)%:R /\
  reward_of Shipped.SOLVERS (Shipped.TIMEOUT algR)
    (elapsed (run_problem Shipped.SOLVERS (Shipped.TIMEOUT algR)
                (Exited 1 "unknown" "") "p")) = 0.
Proof.
exact: (@nonsolve_reward_zero algR Shipped.SOLVERS (Shipped.TIMEOUT algR)
          (Exited 1 "unknown" "") "p" isT (shipped_T_gt0 algR) isT).
Defined.

Lemma updates_follow_attempts_witness :
  exists2 w',
    round Shipped.SOLVERS (Shipped.TIMEOUT algR) (Shipped.ALPHA algR)
      (Examples.zero_probe algR Shipped.d) (Examples.all_timeout algR)
      (start algR Shipped.SOLVERS Shipped.d) "p" = Some w' &
    model_ok Shipped.SOLVERS (mdl (start algR Shipped.SOLVERS Shipped.d)).
Proof.
have [w' e _] :=
  @updates_follow_attempts algR Shipped.SOLVERS Shipped.d
    (Shipped.TIMEOUT algR) (Shipped.ALPHA algR)
    (Examples.zero_probe algR Shipped.d) (Examples.all_timeout algR)
    (start algR Shipped.SOLVERS Shipped.d) "p"
    (init_ok algR Shipped.SOLVERS Shipped.d) isT.
exists w'; [exact: e | exact: (init_ok algR Shipped.SOLVERS Shipped.d)].
Defined.

Lemma no_configuration_check_witness :
  exists2 w,
    main Shipped.SOLVERS (Shipped.TIMEOUT algR) (Shipped.ALPHA algR)
      (Examples.zero_probe algR Shipped.d) (Examples.all_timeout algR)
      [:: "p"; "q"]%string = Some w &
    ctr w = 2%N.
Proof.
have [w e [ec _]] :=
  (proj1 (@no_configuration_check algR Shipped.SOLVERS Shipped.d
            (Shipped.TIMEOUT algR) (Shipped.ALPHA algR)
            (Examples.zero_probe algR Shipped.d) (Examples.all_timeout algR)
            "p" [:: "p"; "q"]%string)) isT.
exists w; [exact: e | exact: ec].
Defined.

Lemma update_order_witness :
  exists2 w',
    round Shipped.SOLVERS (Shipped.TIMEOUT algR) (Shipped.ALPHA algR)
      (Examples.zero_probe algR Shipped.d) (Examples.all_timeout algR)
      (start algR Shipped.SOLVERS Shipped.d) "p" = Some w' &
    (0 < K Shipped.SOLVERS)%N.
Proof.
have [_ h _ _] :=
  @update_order algR Shipped.SOLVERS Shipped.d (Shipped.TIMEOUT algR)
    (Shipped.ALPHA algR) (Examples.zero_probe algR Shipped.d)
    (Examples.all_timeout algR).
have [w' e _] :=
  h (start algR Shipped.SOLVERS Shipped.d) "p"%string
    (init_ok algR Shipped.SOLVERS Shipped.d) isT.
exists w'; [exact: e | exact: isT].
Defined.

Lemma prediction_moves_with_surprise_witness :
  exists2 m',
    update (init algR Shipped.SOLVERS Shipped.d) (Examples.x38 algR) 0
      (393 / 400) = Some m' &
    (gain (init algR Shipped.SOLVERS Shipped.d) 0 (Examples.x38 algR) == 0)
    = (Examples.x38 algR == 0).
Proof.
have [m' e [_ _ h _]] :=
  @prediction_moves_with_surprise algR Shipped.SOLVERS Shipped.d
    (init algR Shipped.SOLVERS Shipped.d) (Examples.x38 algR) 0 (393 / 400)
    (init_ok algR Shipped.SOLVERS Shipped.d) isT.
exists m'; [exact: e | exact: h].
Defined.

(* C4: with the shipped configuration and engines that all time out, the
   four attempts of a round come before its four updates *)
Lemma updates_deferred_counterexample :
  exists2 w,
    main Shipped.SOLVERS (Shipped.TIMEOUT algR) (Shipped.ALPHA algR)
      (Examples.zero_probe algR Shipped.d) (Examples.all_timeout algR)
      [:: "p"%string] = Some w &
    interleaved (trace w) = false.
Proof.
have [w e et] := timeout_round algR.
exists w; first exact: e.
exact: (etrans (f_equal interleaved et) (erefl false)).
Qed.

(* C7: feature vectors of length zero, and a negative ALPHA, are accepted:
   a round is processed *)
Lemma configuration_accepted_counterexample :
  (exists2 w,
     main Shipped.SOLVERS (Shipped.TIMEOUT algR) (Shipped.ALPHA algR)
       (Examples.zero_probe algR 0) (Examples.all_timeout algR)
       [:: "p"%string] = Some w &
     ctr w = 1%N) /\
  (exists2 w,
     main Shipped.SOLVERS (Shipped.TIMEOUT algR) (-1)
       (Examples.zero_probe algR Shipped.d) (Examples.all_timeout algR)
       [:: "p"%string] = Some w &
     ctr w = 1%N).
Proof.
split; [exact: (@unchecked_round algR 0 (Shipped.ALPHA algR))
       | exact: (@unchecked_round algR Shipped.d (-1))].
Qed.

(* C10: from the initial model of the shipped configuration, the update of
   engine 0 with the reward 0.9825, which is not the predicted value 0,
   leaves the score of engine 0 at the same feature vector unchanged *)
Lemma score_unchanged_counterexample :
  exists2 m1,
    update (init algR Shipped.SOLVERS Shipped.d) (Examples.x38 algR) 0
      (393 / 400) = Some m1 &
    393 / 400 != predicted (init algR Shipped.SOLVERS Shipped.d) 0
                   (Examples.x38 algR) /\
    score_spec (Shipped.ALPHA algR) m1 0 (Examples.x38 algR)
    = score_spec (Shipped.ALPHA algR) (init algR Shipped.SOLVERS Shipped.d)
        0 (Examples.x38 algR).
Proof. exact: (x38_counter algR). Qed.
